(** * verify_links.py: the documentation link checker

    A shallow embedding of [src/verify_links.py] and the properties of its
    extractor, pre-flight classifier, prober, bucketing loop and report.

    Modelling conventions.
    - A Python [str] is a [string]; one [ascii] stands for one character
      whose code point is below 256.  Comparison, [in], [rstrip] and the
      regular expression are written out on that representation.
    - A Python [int] is a [Z]; [len] is a [nat].
    - The one effect that the properties speak about is the network: the
      world is the list of the URLs handed to [urllib.request.urlopen] so
      far, oldest first.  What the network answers is a variable of the
      development; it may depend on that history.
    - [try]/[except] is written out: a computation yields [Ret v] or
      [Propagate e], and the handlers test [isinstance] in source order.

    Two of the repository's one-off scripts follow in modules of their
    own: [WithAuth] (scripts/fix-withauth-types.py, over a file system
    kept as a finite map) and [ActWrap] (the line loop of
    fix-act-final.py). *)

From Stdlib Require Import ZArith Ascii.
From stdpp Require Import base decidable list sorting gmap strings.

(** ** Python string operations used by the script *)

Module Str.

(** [x in s] on strings: [x] occurs as a substring of [s]. *)
Fixpoint contains (x s : string) : bool :=
  String.prefix x s ||
  match s with
  | EmptyString => false
  | String _ s' => contains x s'
  end.

Definition char_in (c : ascii) (chars : list ascii) : bool :=
  bool_decide (c ∈ chars).

(** [s.rstrip(chars)]: drop the longest suffix made of [chars]. *)
Fixpoint rstrip (chars : list ascii) (s : string) : string :=
  match s with
  | EmptyString => EmptyString
  | String c s' =>
      match rstrip chars s' with
      | EmptyString => if char_in c chars then EmptyString else String c EmptyString
      | r => String c r
      end
  end.

(** The longest prefix of [s] whose characters all satisfy [p]. *)
Fixpoint take_while (p : ascii → bool) (s : string) : string :=
  match s with
  | EmptyString => EmptyString
  | String c s' => if p c then String c (take_while p s') else EmptyString
  end.

Fixpoint drop (n : nat) (s : string) : string :=
  match n, s with
  | O, _ => s
  | S n', String _ s' => drop n' s'
  | S _, EmptyString => EmptyString
  end.

(** The last character, if any. *)
Fixpoint last (s : string) : option ascii :=
  match s with
  | EmptyString => None
  | String c EmptyString => Some c
  | String _ s' => last s'
  end.

Fixpoint all_chars (p : ascii → bool) (s : string) : bool :=
  match s with
  | EmptyString => true
  | String c s' => p c && all_chars p s'
  end.

End Str.

(** ** The extractor: [re.findall(url_pattern, content)]

    The pattern is the scheme [http], an optional [s], [://], then one or
    more characters other than white space, closing parenthesis, double
    quote, single quote and backquote. *)

Module Re.

Definition code (c : ascii) : N := N_of_ascii c.

(** [\s] of a [str] pattern: the characters Python counts as white space,
    here those with a code point below 256. *)
Definition is_whitespace (c : ascii) : bool :=
  let n := code c in
  ((9 <=? n) && (n <=? 13) || (28 <=? n) && (n <=? 32) ||
   (n =? 133) || (n =? 160))%N.

(** The negated class at the end of the pattern; 034 is the double quote,
    039 the single quote, 096 the backquote. *)
Definition url_char (c : ascii) : bool :=
  negb (is_whitespace c) &&
  negb (Str.char_in c [")"; "034"; "039"; "096"]%char).

(** One match attempt anchored at the head of [s].  The class is greedy
    and nothing follows it, so it takes the whole run; [s?] needs no
    backtracking because [s] and [:] differ. *)
Definition match_here (s : string) : option string :=
  let scheme :=
    if String.prefix "https://" s then Some "https://"
    else if String.prefix "http://" s then Some "http://"
    else None in
  match scheme with
  | None => None
  | Some p =>
      match Str.take_while url_char (Str.drop (String.length p) s) with
      | EmptyString => None
      | body => Some (p +:+ body)
      end
  end.

(** [findall]: leftmost matches, not overlapping.  [skip] counts the
    characters of the previous match still to be passed over. *)
Fixpoint findall_from (skip : nat) (s : string) : list string :=
  match s with
  | EmptyString => []
  | String _ s' =>
      match skip with
      | S k => findall_from k s'
      | O =>
          match match_here s with
          | Some m => m :: findall_from (String.length m - 1) s'
          | None => findall_from 0 s'
          end
      end
  end.

Definition findall (content : string) : list string := findall_from 0 content.

End Re.

(** [extract_urls_from_file]: the file has been read into [content];
    [list(set(urls))] is the set of the matches. *)
Definition extract_urls_from_file (content : string) : gset string :=
  list_to_set (Re.findall content).

(** ** Exceptions of the probe *)

(** The exception classes that the body of the [try] can raise, with the
    part of Python's hierarchy above them. *)
Inductive exc_class :=
  | Exception | ValueError | HTTPException | OSError | ConnectionError
  | ConnectionResetError | TimeoutError | SSLError | URLError | HTTPError.

Global Instance exc_class_eq_dec : EqDecision exc_class.
Proof. solve_decision. Defined.

(** Method resolution order: the class and all its bases. *)
Definition mro (c : exc_class) : list exc_class :=
  match c with
  | Exception => [Exception]
  | ValueError => [ValueError; Exception]
  | HTTPException => [HTTPException; Exception]
  | OSError => [OSError; Exception]
  | ConnectionError => [ConnectionError; OSError; Exception]
  | ConnectionResetError => [ConnectionResetError; ConnectionError; OSError; Exception]
  | TimeoutError => [TimeoutError; OSError; Exception]
  | SSLError => [SSLError; OSError; Exception]
  | URLError => [URLError; OSError; Exception]
  | HTTPError => [HTTPError; URLError; OSError; Exception]
  end.

(** An exception object: its class, [e.code] (meaningful for [HTTPError]),
    [str(e.reason)] (for [URLError] and [HTTPError]) and [str(e)]. *)
Record exn := mk_exn {
  exn_class : exc_class;
  exn_code : Z;
  exn_reason : string;
  exn_str : string
}.

Definition isinstance (e : exn) (c : exc_class) : bool :=
  bool_decide (c ∈ mro (exn_class e)).

(** What the body of the [try] does for one URL: [urlopen] hands back a
    response, read through [getcode()] and [geturl()], or something raises. *)
Inductive attempt :=
  | Responded (status : Z) (final_url : string)
  | Raised (e : exn).

Inductive outcome (A : Type) :=
  | Ret (a : A)
  | Propagate (e : exn).
Arguments Ret {A} a.
Arguments Propagate {A} e.

(** The network world: the URLs requested so far, oldest first. *)
Definition world := list string.

(** ** Results and report *)

(** One entry of a bucket: [(url_clean, status, result)]. *)
Definition entry : Type := string * Z * string.

Inductive bucket := valid | redirected | broken | template | example | error.

Global Instance bucket_eq_dec : EqDecision bucket.
Proof. solve_decision. Defined.

Definition all_buckets : list bucket :=
  [valid; redirected; broken; template; example; error].

(** The dictionary [results]: its six keys are fixed. *)
Record results := mk_results {
  r_valid : list entry;
  r_redirected : list entry;
  r_broken : list entry;
  r_template : list entry;
  r_example : list entry;
  r_error : list entry
}.

Definition empty_results : results := mk_results [] [] [] [] [] [].

(** [results[b]] *)
Definition get (b : bucket) (r : results) : list entry :=
  match b with
  | valid => r_valid r
  | redirected => r_redirected r
  | broken => r_broken r
  | template => r_template r
  | example => r_example r
  | error => r_error r
  end.

(** [results[b].append(e)] *)
Definition append (b : bucket) (e : entry) (r : results) : results :=
  match b with
  | valid => mk_results (r_valid r ++ [e]) (r_redirected r) (r_broken r) (r_template r) (r_example r) (r_error r)
  | redirected => mk_results (r_valid r) (r_redirected r ++ [e]) (r_broken r) (r_template r) (r_example r) (r_error r)
  | broken => mk_results (r_valid r) (r_redirected r) (r_broken r ++ [e]) (r_template r) (r_example r) (r_error r)
  | template => mk_results (r_valid r) (r_redirected r) (r_broken r) (r_template r ++ [e]) (r_example r) (r_error r)
  | example => mk_results (r_valid r) (r_redirected r) (r_broken r) (r_template r) (r_example r ++ [e]) (r_error r)
  | error => mk_results (r_valid r) (r_redirected r) (r_broken r) (r_template r) (r_example r) (r_error r ++ [e])
  end.

Record summary := mk_summary {
  total_urls : nat;
  s_valid : nat;
  s_redirected : nat;
  s_broken : nat;
  s_template : nat;
  s_example : nat;
  s_error : nat
}.

Definition count (b : bucket) (s : summary) : nat :=
  match b with
  | valid => s_valid s
  | redirected => s_redirected s
  | broken => s_broken s
  | template => s_template s
  | example => s_example s
  | error => s_error s
  end.

(** The object written to [link_verification_results.json]. *)
Record report := mk_report {
  report_summary : summary;
  report_results : results
}.

(** ** [check_url] *)

Definition TEMPLATE_MARKERS : list string :=
  ["{"; "}"; "${"; "$LOCATION"; "PROJECT_ID"; "TEAM_ID"; "["; "]"].

Definition EXAMPLE_MARKERS : list string :=
  ["example.com"; "example123"; "xyzcompany"; "your-server.com"].

(** The characters given to [url.rstrip]: single quote (039), double quote
    (034), full stop, comma, semicolon, colon. *)
Definition STRIP_CHARS : list ascii := ["039"; "034"; "."; ","; ";"; ":"]%char.

(** [any(x in url for x in markers)] *)
Definition any_in (markers : list string) (url : string) : bool :=
  existsb (λ x, Str.contains x url) markers.

Section Checker.

(** The network and the library: what the body of the [try] yields when
    [url] is requested with [timeout] after the requests in the world. *)
Variable urlopen : world → string → Z → attempt.

Local Open Scope Z_scope.

Definition check_url (url : string) (timeout : Z) (w : world)
  : outcome entry * world :=
  if any_in TEMPLATE_MARKERS url then (Ret (url, -1, "TEMPLATE_URL"), w)
  else if any_in EXAMPLE_MARKERS url then (Ret (url, -1, "EXAMPLE_URL"), w)
  else
    let url := Str.rstrip STRIP_CHARS url in
    let w' := w ++ [url] in
    match urlopen w url timeout with
    | Responded status final_url =>
        if negb (String.eqb final_url url)
        then (Ret (url, status, final_url), w')
        else (Ret (url, status, "OK"), w')
    | Raised e =>
        if isinstance e HTTPError then (Ret (url, exn_code e, exn_reason e), w')
        else if isinstance e URLError then (Ret (url, -2, exn_reason e), w')
        else if isinstance e Exception then (Ret (url, -3, exn_str e), w')
        else (Propagate e, w')
    end.

(** The [if]/[elif] chain of the loop in [main]: the bucket of an entry. *)
Definition bucket_of (t : entry) : bucket :=
  let '(_, status, result) := t in
  if status =? -1 then
    if String.eqb result "TEMPLATE_URL" then template else example
  else if status =? 200 then
    if negb (String.eqb result "OK") then redirected else valid
  else if status >=? 400 then broken
  else error.

(** The verification loop, over the URLs in the order given.  The
    timeout is the default of [check_url]; an exception that [check_url]
    lets through ends the loop and the run.  The progress line and the
    pause between two URLs leave no trace in the report and are left out. *)
Fixpoint verify (urls : list string) (r : results) (w : world)
  : outcome results * world :=
  match urls with
  | [] => (Ret r, w)
  | url :: rest =>
      match check_url url 10 w with
      | (Ret t, w') => verify rest (append (bucket_of t) t r) w'
      | (Propagate e, w') => (Propagate e, w')
      end
  end.

End Checker.

(** ** The corpus and [main] *)

(** A documentation file: its text, or [None] when opening or reading it
    raises (the [except] of the collecting loop skips the file). *)
Definition file := option string.

(** The loop that fills the set [all_urls]. *)
Definition collect (corpus : list file) : gset string :=
  foldl (λ all_urls f,
           match f with
           | Some content => all_urls ∪ extract_urls_from_file content
           | None => all_urls
           end) ∅ corpus.

(** [sorted] on strings: ascending by code points. *)
Definition sorted (urls : list string) : list string :=
  merge_sort String.le urls.

(** What is printed after the loop, as far as it carries data: the six
    counts, the note about the saved file, and the three closing sections.
    An element stands for the [print] calls that show one value or one
    entry (an item is one turn of a [for] loop, two calls), kept as the
    values interpolated into them; the title, the rules and the blank
    lines are constant and left out, and so are the lines printed while
    the files are read. *)
Inductive line :=
  | SummaryCount (b : bucket) (n : nat)
  | Saved
  | SectionHeader (b : bucket)
  | BrokenItem (status : Z) (url msg : string)
  | RedirectedItem (status : Z) (url new_url : string)
  | ErrorItem (url msg : string).

(** One of the three sections at the end: nothing for an empty bucket,
    else a header and the first ten entries. *)
Definition section (b : bucket) (render : entry → line) (r : results)
  : list line :=
  match get b r with
  | [] => []
  | items => SectionHeader b :: map render (take 10 items)
  end.

Definition console (r : results) : list line :=
  map (λ b, SummaryCount b (length (get b r))) all_buckets ++
  [Saved] ++
  section broken (λ '(url, status, msg), BrokenItem status url msg) r ++
  section redirected (λ '(url, status, new_url), RedirectedItem status url new_url) r ++
  section error (λ '(url, _, msg), ErrorItem url msg) r.

Definition make_report (n : nat) (r : results) : report :=
  {| report_summary :=
       {| total_urls := n;
          s_valid := length (r_valid r);
          s_redirected := length (r_redirected r);
          s_broken := length (r_broken r);
          s_template := length (r_template r);
          s_example := length (r_example r);
          s_error := length (r_error r) |};
     report_results := r |}.

(** What a run that goes through leaves: the report object handed to
    [json.dump] and the data printed after the loop.  The opening of the
    output file is the environment's affair and not modelled: a run whose
    output file cannot be opened has built the same report object and
    stops there, before the note about the saved file and the sections. *)
Record run := mk_run {
  written : report;
  printed : list line
}.

Section Main.

Variable urlopen : world → string → Z → attempt.

(** [main] from the point where [all_urls] is known.  A Python set has
    no specified iteration order: [enum] is the order in which the set
    happens to hand its elements to [sorted]. *)
Definition main_from (enum : list string) : outcome run * world :=
  match verify urlopen (sorted enum) empty_results [] with
  | (Ret r, w) =>
      (Ret {| written := make_report (length enum) r; printed := console r |}, w)
  | (Propagate e, w) => (Propagate e, w)
  end.

Definition main (corpus : list file) : outcome run * world :=
  main_from (elements (collect corpus)).

End Main.

(** ** Names for what the code decides inline *)

(** The two guards at the head of [check_url], read as a decision. *)
Inductive preflight := Template | ExampleDomain | Probeable.

Global Instance preflight_eq_dec : EqDecision preflight.
Proof. solve_decision. Defined.

Definition classify (url : string) : preflight :=
  if any_in TEMPLATE_MARKERS url then Template
  else if any_in EXAMPLE_MARKERS url then ExampleDomain
  else Probeable.

(** The clean-up that [check_url] applies before the request. *)
Definition normalize (url : string) : string := Str.rstrip STRIP_CHARS url.

(** The requests that the URLs [urls], checked in that order, give rise to. *)
Definition requests_of (urls : list string) : list string :=
  normalize <$> filter (λ u, classify u = Probeable) urls.

(** Filing one entry, and the entries of one bucket among a list. *)
Definition file_entry (r : results) (t : entry) : results :=
  append (bucket_of t) t r.

Definition entries_in (b : bucket) (ts : list entry) : list entry :=
  filter (λ t, bucket_of t = b) ts.

(** The characters that the specification's normalization strips from the
    end of a URL, following its words: punctuation, quote and bracket
    characters.  034 is the double quote, 039 the single quote, 096 the
    backquote. *)
Definition SPEC_TRAILING : list ascii :=
  (["."; ","; ";"; ":"; "!"; "?"] ++ ["039"; "034"; "096"] ++
   ["("; ")"; "["; "]"; "{"; "}"; "<"; ">"])%char.

Definition spec_normalize (url : string) : string :=
  Str.rstrip SPEC_TRAILING url.

(** Whether an element of the console text is an entry shown for the
    bucket [b]: one turn of the [for] loop over [results[b][:10]]. *)
Definition item_of (b : bucket) (l : line) : bool :=
  match b, l with
  | broken, BrokenItem _ _ _ => true
  | redirected, RedirectedItem _ _ _ => true
  | error, ErrorItem _ _ => true
  | _, _ => false
  end.

(** * fix-withauth-types.py: typing the [withAuth] calls of the route files

    The script reads each route file of a fixed table, and where the file
    calls [withAuth(async] without a type argument it writes the file back
    with the argument built from the route's parameter names.

    The file system is a finite map from paths to nodes.  A text file
    holds its text as stored; reading goes through Python's universal
    newlines, writing (on the POSIX system the script is made for) stores
    the text as it is.  Everything else that makes [open] raise (a
    directory, a file that may not be read or cannot be decoded) is a
    [Blocked] node. *)

Module WithAuth.

Inductive node :=
  | Text (stored : string) (writable : bool)
  | Blocked.

Abbreviation filesystem := (gmap string node).

(** 010 is the line feed, 013 the carriage return. *)
Definition LF : ascii := "010"%char.
Definition CR : ascii := "013"%char.

(** What [f.read()] makes of the stored text in text mode: a carriage
    return, with the line feed behind it if there is one, becomes a line
    feed. *)
Fixpoint universal_newlines (s : string) : string :=
  match s with
  | EmptyString => EmptyString
  | String c s' =>
      if bool_decide (c = CR) then
        String LF
          match s' with
          | String c' s'' =>
              if bool_decide (c' = LF) then universal_newlines s''
              else universal_newlines s'
          | EmptyString => EmptyString
          end
      else String c (universal_newlines s')
  end.

(** [re.sub(pattern, repl, s)] where the pattern matches one fixed,
    non-empty text [pat] and the replacement [repl] is plain text (no
    backslash): the occurrences of [pat], leftmost first and not
    overlapping, are replaced.  [skip] counts the characters of the
    occurrence being replaced that are still to be passed over. *)
Fixpoint sub_from (pat repl : string) (skip : nat) (s : string) : string :=
  match s with
  | EmptyString => EmptyString
  | String c s' =>
      match skip with
      | S k => sub_from pat repl k s'
      | O =>
          if String.prefix pat s
          then repl +:+ sub_from pat repl (String.length pat - 1) s'
          else String c (sub_from pat repl 0 s')
      end
  end.

Definition re_sub (pat repl s : string) : string := sub_from pat repl 0 s.

(** [sep.join(l)] *)
Fixpoint join (sep : string) (l : list string) : string :=
  match l with
  | [] => EmptyString
  | [x] => x
  | x :: l' => x +:+ sep +:+ join sep l'
  end.

Definition type_str (params : list string) : string :=
  "{ " +:+ join "; " ((λ p, p +:+ ": string") <$> params) +:+ " }".

(** The four ways [fix_file] ends, one per message it prints. *)
Inductive verdict := AlreadyFixed | Fixed | NoChangesNeeded | Error.

(** The value returned with each of them. *)
Definition returned (v : verdict) : bool :=
  match v with Fixed => true | _ => false end.

Definition fix_file (filepath : string) (params : list string) (fs : filesystem)
  : verdict * filesystem :=
  let type_str := type_str params in
  match fs !! filepath with
  | Some (Text stored writable) =>
      let content := universal_newlines stored in
      if Str.contains ("withAuth<" +:+ type_str +:+ ">") content
      then (AlreadyFixed, fs)
      else
        let original_content := content in
        let content :=
          re_sub "withAuth(async" ("withAuth<" +:+ type_str +:+ ">(async") content in
        if bool_decide (content ≠ original_content) then
          if writable then (Fixed, <[filepath := Text content true]> fs)
          else (Error, fs)
        else (NoChangesNeeded, fs)
  | Some Blocked => (Error, fs)
  | None => (Error, fs)
  end.

Definition FILE_PARAMS : list (string * list string) :=
  [
   ("app/api/assets/[assetId]/tags/route.ts",
    ["assetId"]);
   ("app/api/assets/[assetId]/thumbnail/route.ts",
    ["assetId"]);
   ("app/api/assets/[assetId]/update/route.ts",
    ["assetId"]);
   ("app/api/assets/[assetId]/versions/[versionId]/revert/route.ts",
    ["assetId"; "versionId"]);
   ("app/api/assets/[assetId]/versions/route.ts",
    ["assetId"]);
   ("app/api/export/queue/[jobId]/pause/route.ts",
    ["jobId"]);
   ("app/api/export/queue/[jobId]/priority/route.ts",
    ["jobId"]);
   ("app/api/export/queue/[jobId]/resume/route.ts",
    ["jobId"]);
   ("app/api/export/queue/[jobId]/route.ts",
    ["jobId"]);
   ("app/api/frames/[frameId]/edit/route.ts",
    ["frameId"]);
   ("app/api/join/[token]/route.ts",
    ["token"]);
   ("app/api/projects/[projectId]/activity/route.ts",
    ["projectId"]);
   ("app/api/projects/[projectId]/backups/[backupId]/restore/route.ts",
    ["projectId"; "backupId"]);
   ("app/api/projects/[projectId]/backups/[backupId]/route.ts",
    ["projectId"; "backupId"]);
   ("app/api/projects/[projectId]/backups/route.ts",
    ["projectId"]);
   ("app/api/projects/[projectId]/chat/messages/route.ts",
    ["projectId"]);
   ("app/api/projects/[projectId]/collaborators/[collaboratorId]/route.ts",
    ["projectId"; "collaboratorId"]);
   ("app/api/projects/[projectId]/collaborators/route.ts",
    ["projectId"]);
   ("app/api/projects/[projectId]/invites/[inviteId]/route.ts",
    ["projectId"; "inviteId"]);
   ("app/api/projects/[projectId]/invites/route.ts",
    ["projectId"]);
   ("app/api/projects/[projectId]/route.ts",
    ["projectId"]);
   ("app/api/projects/[projectId]/share-links/[linkId]/route.ts",
    ["projectId"; "linkId"]);
   ("app/api/projects/[projectId]/share-links/route.ts",
    ["projectId"])
  ].

Definition base_dir : string := "/Users/davidchen/Projects/non-linear-editor".

(** [os.path.join(base_dir, rel_path)] for a relative [rel_path] and a
    [base_dir] that does not end in a slash. *)
Definition path_join (dir rel_path : string) : string :=
  dir +:+ "/" +:+ rel_path.

(** The body of the loop of [main] for one row of the table: whether the
    file counts as fixed, and the file system afterwards.
    [os.path.exists] is the presence of a node. *)
Definition visit (rel_path : string) (params : list string) (fs : filesystem)
  : bool * filesystem :=
  let filepath := path_join base_dir rel_path in
  match fs !! filepath with
  | Some _ =>
      let '(v, fs') := fix_file filepath params fs in (returned v, fs')
  | None => (false, fs)
  end.

(** The loop of [main] over a table, from a count and a file system. *)
Fixpoint main_over (table : list (string * list string))
    (fixed_count : nat) (fs : filesystem) : nat * filesystem :=
  match table with
  | [] => (fixed_count, fs)
  | (rel_path, params) :: rest =>
      let '(fixed, fs') := visit rel_path params fs in
      main_over rest (if fixed then fixed_count + 1 else fixed_count) fs'
  end.

Definition main (fs : filesystem) : nat * filesystem :=
  main_over FILE_PARAMS 0 fs.

(** A parameter name that the model of [re.sub] covers: no backslash (092),
    which the replacement template would interpret, and no carriage
    return. *)
Definition plain (p : string) : bool :=
  Str.all_chars (λ c, negb (bool_decide (c = "092"%char)) && negb (bool_decide (c = CR))) p.

End WithAuth.

(** * fix-act-final.py: wrapping the [render] calls in [act]

    The second step of the script, from [content.split] to the [join]:
    it goes through the lines of the test file and puts every call
    [render(<ExportModal ...);] that does not follow a line with [act]
    between a line [await act(async () => {] and a line [});], with two
    more blanks of indentation.  The step works on whatever text the
    first step hands it; that text is the input here. *)

Module ActWrap.

(** [s.split] at the line feed (010). *)
Fixpoint split_lines (s : string) : list string :=
  match s with
  | EmptyString => [EmptyString]
  | String c s' =>
      if bool_decide (c = "010"%char) then EmptyString :: split_lines s'
      else
        match split_lines s' with
        | l :: ls => String c l :: ls
        | [] => [String c EmptyString]
        end
  end.

(** [join] with the line feed between the lines. *)
Fixpoint join_lines (lines : list string) : string :=
  match lines with
  | [] => EmptyString
  | [l] => l
  | l :: ls => l +:+ String "010"%char (join_lines ls)
  end.

(** The characters that [str.rstrip()] strips: those of [\s]. *)
Definition WHITESPACE : list ascii :=
  ["009"; "010"; "011"; "012"; "013"; "028"; "029"; "030"; "031"; " ";
   "133"; "160"]%char.

(** [s.endswith(suffix)] *)
Fixpoint endswith (suffix s : string) : bool :=
  String.eqb suffix s ||
  match s with
  | EmptyString => false
  | String _ s' => endswith suffix s'
  end.

(** [lines[j].rstrip().endswith(');')] *)
Definition closed (line : string) : bool :=
  endswith ");" (Str.rstrip WHITESPACE line).

(** The group of [re.match(r'^(\s+)', line)]: the blanks that lead the line. *)
Definition leading_ws (line : string) : string :=
  Str.take_while Re.is_whitespace line.

(** [re.search(r'^\s+render\(<ExportModal', line)] finds something. *)
Definition is_render (line : string) : bool :=
  match leading_ws line with
  | EmptyString => false
  | ws => String.prefix "render(<ExportModal" (Str.drop (String.length ws) line)
  end.

(** Where the loop stands before a line: between calls, knowing the line
    before ([lines[i-1]], empty at the start), or inside the inner loop
    that copies a call up to its closing line. *)
Inductive mode :=
  | Outside (prev_line : string)
  | Inside (indent : string).

(** The two loops as one pass over the lines; [None] is the [IndexError]
    of [lines[j]] when the text ends inside a call. *)
Fixpoint wrap_from (m : mode) (lines : list string) : option (list string) :=
  match lines with
  | [] =>
      match m with
      | Outside _ => Some []
      | Inside _ => None
      end
  | line :: rest =>
      match m with
      | Outside prev_line =>
          if is_render line && negb (Str.contains "act" prev_line) then
            let indent := leading_ws line in
            let opening := [indent +:+ "await act(async () => {"; "  " +:+ line] in
            if closed line
            then (λ out, opening ++ (indent +:+ "});") :: out) <$> wrap_from (Outside line) rest
            else (λ out, opening ++ out) <$> wrap_from (Inside indent) rest
          else (λ out, line :: out) <$> wrap_from (Outside line) rest
      | Inside indent =>
          if closed line
          then (λ out, ("  " +:+ line) :: (indent +:+ "});") :: out)
                 <$> wrap_from (Outside line) rest
          else (λ out, ("  " +:+ line) :: out) <$> wrap_from (Inside indent) rest
      end
  end.

(** The step on a text: the new text, or [None] when the script dies. *)
Definition wrap_render (content : string) : option string :=
  join_lines <$> wrap_from (Outside "") (split_lines content).

(** No line up to here makes the loop open a call. *)
Fixpoint quiet (prev_line : string) (lines : list string) : bool :=
  match lines with
  | [] => true
  | line :: rest =>
      negb (is_render line && negb (Str.contains "act" prev_line)) && quiet line rest
  end.

(** How the output of the loop is made from its input: the input lines
    in their order, each as it was or behind two blanks, and between them
    lines made of blanks followed by the opening or the closing of an
    [act] call. *)
Inductive woven : list string → list string → Prop :=
  | woven_nil : woven [] []
  | woven_same l ls out : woven ls out → woven (l :: ls) (l :: out)
  | woven_indented l ls out :
      woven ls out → woven (l :: ls) (("  " +:+ l) :: out)
  | woven_opening ws ls out :
      Str.all_chars Re.is_whitespace ws = true →
      woven ls out → woven ls ((ws +:+ "await act(async () => {") :: out)
  | woven_closing ws ls out :
      Str.all_chars Re.is_whitespace ws = true →
      woven ls out → woven ls ((ws +:+ "});") :: out).

End ActWrap.

(** ** Basic facts *)

Section Facts.

Variable urlopen : world → string → Z → attempt.

Local Open Scope Z_scope.

(** The last handler, [except Exception], lets no exception of the probe
    through. *)
Lemma isinstance_Exception e : isinstance e Exception = true.
Proof. unfold isinstance. by destruct (exn_class e). Qed.

Lemma check_url_exempt url timeout w :
  classify url ≠ Probeable →
  check_url urlopen url timeout w =
    (Ret (url, -1, if any_in TEMPLATE_MARKERS url then "TEMPLATE_URL" else "EXAMPLE_URL"), w).
Proof.
  unfold classify, check_url.
  destruct (any_in TEMPLATE_MARKERS url); [done|].
  destruct (any_in EXAMPLE_MARKERS url); [done|]. congruence.
Qed.

Lemma check_url_probeable url timeout w :
  classify url = Probeable →
  check_url urlopen url timeout w =
    (match urlopen w (normalize url) timeout with
     | Responded status final_url =>
         Ret (normalize url, status,
              if String.eqb final_url (normalize url) then "OK" else final_url)
     | Raised e =>
         if isinstance e HTTPError then Ret (normalize url, exn_code e, exn_reason e)
         else if isinstance e URLError then Ret (normalize url, -2, exn_reason e)
         else Ret (normalize url, -3, exn_str e)
     end, w ++ [normalize url]).
Proof.
  unfold classify, check_url, normalize.
  destruct (any_in TEMPLATE_MARKERS url); [done|].
  destruct (any_in EXAMPLE_MARKERS url); [done|]. intros _.
  destruct (urlopen _ _ _) as [status final_url|e].
  - by destruct (String.eqb _ _).
  - rewrite isinstance_Exception.
    by destruct (isinstance e HTTPError), (isinstance e URLError).
Qed.

Lemma check_url_returns url timeout w :
  ∃ t, check_url urlopen url timeout w =
         (Ret t, w ++ requests_of [url]).
Proof.
  unfold requests_of. rewrite filter_cons, filter_nil.
  destruct (decide (classify url = Probeable)) as [Hp|Hp].
  - rewrite check_url_probeable by done. simpl.
    destruct (urlopen _ _ _) as [?|e]; [eauto|].
    destruct (isinstance e HTTPError), (isinstance e URLError); eauto.
  - rewrite check_url_exempt by done. simpl. rewrite app_nil_r. eauto.
Qed.

Lemma requests_of_cons url urls :
  requests_of (url :: urls) = requests_of [url] ++ requests_of urls.
Proof.
  unfold requests_of. rewrite !filter_cons, filter_nil.
  by destruct (decide _).
Qed.

(** The loop always runs to its end: it files one entry per URL, in
    order, and issues the requests of the probeable ones. *)
Lemma verify_spec urls r w :
  ∃ ts,
    verify urlopen urls r w = (Ret (foldl file_entry r ts), w ++ requests_of urls) ∧
    Forall2 (λ url t, ∃ w0, (check_url urlopen url 10 w0).1 = Ret t) urls ts.
Proof.
  revert r w. induction urls as [|url urls IH]; intros r w.
  - exists []. simpl. by rewrite app_nil_r.
  - destruct (check_url_returns url 10 w) as [t Ht].
    destruct (IH (file_entry r t) (w ++ requests_of [url])) as (ts & Hts & Hall).
    exists (t :: ts). split.
    + simpl. rewrite Ht. unfold file_entry in Hts. rewrite Hts.
      by rewrite (requests_of_cons url urls), (assoc_L (++)).
    + constructor; [|done]. exists w. by rewrite Ht.
Qed.

Lemma get_append b b' t r :
  get b (append b' t r) = if decide (b' = b) then get b r ++ [t] else get b r.
Proof. by destruct b, b'. Qed.

Lemma get_foldl_file_entry b ts r :
  get b (foldl file_entry r ts) = get b r ++ entries_in b ts.
Proof.
  revert r. induction ts as [|t ts IH]; intros r; simpl.
  - by rewrite app_nil_r.
  - rewrite IH. unfold file_entry. rewrite get_append.
    unfold entries_in. rewrite filter_cons.
    destruct (decide (bucket_of t = b)); [by rewrite <-(assoc_L (++))|done].
Qed.

Lemma entries_in_total ts :
  sum_list ((λ b, length (entries_in b ts)) <$> all_buckets) = length ts.
Proof.
  induction ts as [|t ts IH]; [done|].
  simpl in *. unfold entries_in in *. rewrite !filter_cons.
  destruct (bucket_of t); simpl; lia.
Qed.

Lemma sorted_Permutation urls : sorted urls ≡ₚ urls.
Proof. apply merge_sort_Permutation. Qed.

Lemma sorted_StronglySorted urls : StronglySorted String.le (sorted urls).
Proof. apply StronglySorted_merge_sort; apply _. Qed.

(** The sorted list does not depend on the order of the enumeration. *)
Lemma sorted_order_irrelevant enum1 enum2 :
  enum1 ≡ₚ enum2 → sorted enum1 = sorted enum2.
Proof.
  intros Hp. apply (StronglySorted_unique String.le).
  - apply sorted_StronglySorted.
  - apply sorted_StronglySorted.
  - by rewrite !sorted_Permutation.
Qed.

(** A run from an enumeration of the set: it ends normally, and its
    report and request log are those of the sorted list. *)
Lemma main_from_spec enum :
  ∃ ts,
    main_from urlopen enum =
      (Ret {| written := make_report (length enum) (foldl file_entry empty_results ts);
              printed := console (foldl file_entry empty_results ts) |},
       requests_of (sorted enum)) ∧
    Forall2 (λ url t, ∃ w0, (check_url urlopen url 10 w0).1 = Ret t) (sorted enum) ts.
Proof.
  destruct (verify_spec (sorted enum) empty_results []) as (ts & Hv & Hall).
  exists ts. split; [|done]. unfold main_from. by rewrite Hv.
Qed.

Lemma sorted_elements (s : gset string) :
  NoDup (sorted (elements s)) ∧ ∀ u, u ∈ sorted (elements s) ↔ u ∈ s.
Proof.
  split.
  - rewrite sorted_Permutation. apply NoDup_elements.
  - intros u. rewrite sorted_Permutation. apply elem_of_elements.
Qed.

(** [all_urls] holds the matches of all readable files. *)
Lemma elem_of_collect corpus u :
  u ∈ collect corpus ↔ ∃ content, Some content ∈ corpus ∧ u ∈ Re.findall content.
Proof.
  unfold collect.
  assert (∀ acc : gset string,
    u ∈ foldl (λ all_urls f,
                 match f with
                 | Some content => all_urls ∪ extract_urls_from_file content
                 | None => all_urls
                 end) acc corpus ↔
    u ∈ acc ∨ ∃ content, Some content ∈ corpus ∧ u ∈ Re.findall content) as H.
  { induction corpus as [|f corpus IH]; intros acc; simpl.
    - split; [auto|]. intros [?|(? & []%elem_of_nil & _)]; done.
    - rewrite IH. destruct f as [content|].
      + unfold extract_urls_from_file.
        rewrite elem_of_union, elem_of_list_to_set. split.
        * intros [[?|?]|(c & ? & ?)]; [by left|right; exists content|right; exists c];
            (split; [|done]); [left|by right].
        * intros [?|(c & [[= ->]|?]%elem_of_cons & ?)];
            [by left; left|by left; right|right; by exists c].
      + split.
        * intros [?|(c & ? & ?)]; [by left|right; exists c]. split; [by right|done].
        * intros [?|(c & [?|?]%elem_of_cons & ?)]; [by left|done|right; by exists c]. }
  rewrite H. split; [intros [[]%not_elem_of_empty|?]; done|by right].
Qed.

Lemma isinstance_HTTPError_URLError e :
  isinstance e HTTPError = true → isinstance e URLError = true.
Proof. unfold isinstance. by destruct (exn_class e). Qed.

(** [rstrip] cuts off a suffix made of the given characters, and what it
    leaves does not end in one of them. *)
Lemma rstrip_suffix chars s :
  ∃ suffix, s = Str.rstrip chars s +:+ suffix ∧
            Str.all_chars (λ c, Str.char_in c chars) suffix = true.
Proof.
  induction s as [|c s (suffix & Hs & Hall)]; [by exists ""|].
  simpl. destruct (Str.rstrip chars s) as [|a r] eqn:Hr.
  - destruct (Str.char_in c chars) eqn:Hc.
    + exists (String c s). split; [done|]. change (s = suffix) in Hs.
      cbn [Str.all_chars]. by rewrite Hc, Hs, Hall.
    + exists suffix. change (s = suffix) in Hs. split; [|done].
      change (String c s = String c suffix). by rewrite <-Hs.
  - exists suffix. split; [|done].
    change (String c s = String c (String a r +:+ suffix)). by rewrite <-Hs.
Qed.

Lemma rstrip_last chars s c :
  Str.last (Str.rstrip chars s) = Some c → Str.char_in c chars = false.
Proof.
  induction s as [|a s IH]; [done|].
  simpl. destruct (Str.rstrip chars s) as [|b r] eqn:Hr.
  - destruct (Str.char_in a chars) eqn:Ha; [done|]. simpl. by intros [= <-].
  - intros Hl. apply IH. exact Hl.
Qed.

(** An exempt URL adds nothing to the requests of a run. *)
Lemma requests_of_without url urls :
  classify url ≠ Probeable →
  requests_of urls = requests_of (filter (λ u, u ≠ url) urls).
Proof.
  intros Hex. unfold requests_of. f_equal.
  induction urls as [|u urls IH]; [done|].
  rewrite !filter_cons. destruct (decide (u ≠ url)) as [Hne|Heq].
  - rewrite filter_cons. by rewrite IH.
  - apply dec_stable in Heq as ->.
    destruct (decide (classify url = Probeable)); [done|]. apply IH.
Qed.

(** In a finished run, every URL of the set has its entry in the bucket
    that the [if]/[elif] chain names. *)
Lemma main_files_every_url corpus url :
  url ∈ collect corpus →
  ∃ out log t w0,
    main urlopen corpus = (Ret out, log) ∧
    log = requests_of (sorted (elements (collect corpus))) ∧
    printed out = console (report_results (written out)) ∧
    (check_url urlopen url 10 w0).1 = Ret t ∧
    t ∈ get (bucket_of t) (report_results (written out)).
Proof.
  intros Hin. unfold main.
  destruct (main_from_spec (elements (collect corpus))) as (ts & Hm & Hall).
  apply (sorted_elements (collect corpus)) in Hin.
  apply list_elem_of_lookup in Hin as [i Hi].
  destruct (Forall2_lookup_l _ _ _ _ _ Hall Hi) as (t & Ht & w0 & Hc).
  eexists _, _, t, w0. split; [exact Hm|]. do 3 (split; [done|]).
  simpl. rewrite get_foldl_file_entry. apply elem_of_app. right.
  apply list_elem_of_filter. split; [done|]. by eapply list_elem_of_lookup_2.
Qed.

Lemma elem_of_section b render r l :
  l ∈ section b render r ↔
  (get b r ≠ [] ∧ l = SectionHeader b) ∨
  (∃ t, l = render t ∧ t ∈ take 10 (get b r)).
Proof.
  unfold section. destruct (get b r) as [|t0 items] eqn:Hb.
  - split; [by intros ?%elem_of_nil|].
    intros [[? _]|(t & _ & ?%elem_of_nil)]; done.
  - change (map render ?l) with (render <$> l).
    rewrite elem_of_cons, list_elem_of_fmap. split.
    + intros [->|?]; [by left|by right].
    + intros [[_ ->]|?]; [by left|by right].
Qed.



End Facts.

(** ** The claims *)

(** C1.  For every corpus the run ends normally and its report partitions
    the URLs: the loop computes one entry per URL of the deduplicated set
    (taken in sorted order), every bucket of the report holds exactly the
    entries that the [if]/[elif] chain sends to it, so every entry lies in
    exactly one bucket; each count of the summary is the length of its
    bucket, and the six counts add up to [total_urls], the size of the
    set. *)
Theorem every_url_in_exactly_one_bucket
    (urlopen : world → string → Z → attempt) (corpus : list file) :
  ∃ out w ts,
    main urlopen corpus = (Ret out, w) ∧
    NoDup (sorted (elements (collect corpus))) ∧
    (∀ url, url ∈ sorted (elements (collect corpus)) ↔ url ∈ collect corpus) ∧
    Forall2 (λ url t, ∃ w0, (check_url urlopen url 10 w0).1 = Ret t)
            (sorted (elements (collect corpus))) ts ∧
    (∀ b, get b (report_results (written out)) = entries_in b ts) ∧
    (∀ t, t ∈ ts → exists! b, t ∈ get b (report_results (written out))) ∧
    (∀ b, count b (report_summary (written out)) =
          length (get b (report_results (written out)))) ∧
    total_urls (report_summary (written out)) = size (collect corpus) ∧
    sum_list ((λ b, count b (report_summary (written out))) <$> all_buckets) =
      total_urls (report_summary (written out)).
Proof.
  unfold main.
  destruct (main_from_spec urlopen (elements (collect corpus))) as (ts & Hm & Hall).
  eexists _, _, ts. split; [exact Hm|]. simpl.
  assert (∀ b, get b (foldl file_entry empty_results ts) = entries_in b ts) as Hget.
  { intros b. rewrite get_foldl_file_entry. by destruct b. }
  destruct (sorted_elements (collect corpus)) as [Hnd Hel].
  split; [done|]. split; [done|]. split; [done|]. split; [done|].
  split; [|split; [|split; [done|]]].
  - intros t Ht. exists (bucket_of t). split.
    + rewrite Hget. by apply list_elem_of_filter.
    + intros b. rewrite Hget. by intros [? _]%list_elem_of_filter.
  - by intros [].
  - change (sum_list ((λ b, length (get b (foldl file_entry empty_results ts))) <$> all_buckets)
            = length (elements (collect corpus))).
    rewrite <-(sorted_Permutation (elements (collect corpus))).
    rewrite (Forall2_length _ _ _ Hall), <-(entries_in_total ts).
    f_equal. apply list_fmap_ext. intros _ b _. by rewrite Hget.
Qed.

(** C2, as the specification states it, fails: the set is keyed on the raw
    match, and the clean-up comes later, inside [check_url].  Two files
    that hold the same address, once followed by a full stop, give two
    raw URLs with one normalized form, and that form is requested twice. *)
Lemma same_normalized_url_probed_twice :
  let corpus := [Some "Docs: https://docs.site.org/api. More text";
                 Some "See https://docs.site.org/api for details"] in
  let urlopen := λ (_ : world) (url : string) (_ : Z), Responded 200 url in
  sorted (elements (collect corpus)) =
    ["https://docs.site.org/api"; "https://docs.site.org/api."] ∧
  normalize "https://docs.site.org/api." = normalize "https://docs.site.org/api" ∧
  (main urlopen corpus).2 =
    ["https://docs.site.org/api"; "https://docs.site.org/api"] ∧
  ¬ NoDup (main urlopen corpus).2.
Proof.
  assert ((main (λ (_ : world) (url : string) (_ : Z), Responded 200 url)
             [Some "Docs: https://docs.site.org/api. More text";
              Some "See https://docs.site.org/api for details"]).2 =
          ["https://docs.site.org/api"; "https://docs.site.org/api"]) as Hlog
    by (vm_compute; reflexivity).
  cbv zeta. rewrite Hlog.
  split; [vm_compute; reflexivity|]. split; [vm_compute; reflexivity|].
  split; [reflexivity|].
  intros [Hnotin _]%NoDup_cons. apply Hnotin. by left.
Qed.

(** C2, amended.  Deduplication is on raw URLs: the requests of a run are
    the normalized forms of a duplicate-free list of raw URLs, namely the
    probeable matches of the readable files.  Each distinct raw URL is
    thus requested once, however often and in however many files it
    occurs. *)
Theorem one_probe_per_distinct_raw_url
    (urlopen : world → string → Z → attempt) (corpus : list file) :
  ∃ raws,
    (main urlopen corpus).2 = normalize <$> raws ∧
    NoDup raws ∧
    ∀ u, u ∈ raws ↔
         classify u = Probeable ∧
         ∃ content, Some content ∈ corpus ∧ u ∈ Re.findall content.
Proof.
  exists (filter (λ u, classify u = Probeable) (sorted (elements (collect corpus)))).
  destruct (main_from_spec urlopen (elements (collect corpus))) as (ts & Hm & _).
  destruct (sorted_elements (collect corpus)) as [Hnd Hel].
  unfold main. rewrite Hm. split; [done|]. split.
  - by apply NoDup_filter.
  - intros u. by rewrite list_elem_of_filter, Hel, elem_of_collect.
Qed.

(** C9.  A run is a function of the corpus and of the network's behaviour
    only.  The one source of variation inside a run is the order in which
    the set [all_urls] hands out its elements; whatever that order, the
    loop goes through the same ascending list, so the whole outcome
    (summary, bucket lists, console text, request log) is the same. *)
Theorem run_is_reproducible
    (urlopen : world → string → Z → attempt) (corpus : list file)
    (enum1 enum2 : list string) :
  NoDup enum1 → list_to_set enum1 = collect corpus →
  NoDup enum2 → list_to_set enum2 = collect corpus →
  main_from urlopen enum1 = main_from urlopen enum2 ∧
  main_from urlopen enum1 = main urlopen corpus ∧
  sorted enum1 = sorted enum2 ∧
  StronglySorted String.le (sorted enum1) ∧
  (main_from urlopen enum1).2 = requests_of (sorted enum1).
Proof.
  intros Hnd1 Hs1 Hnd2 Hs2.
  assert (∀ enum, NoDup enum → list_to_set enum = collect corpus →
                  enum ≡ₚ elements (collect corpus)) as Hperm.
  { intros enum Hnd Hs. apply NoDup_Permutation; [done|apply NoDup_elements|].
    intros u. by rewrite elem_of_elements, <-Hs, elem_of_list_to_set. }
  assert (∀ enum, enum ≡ₚ elements (collect corpus) →
                  main_from urlopen enum = main urlopen corpus) as Hsame.
  { intros enum Hp. unfold main, main_from.
    by rewrite (sorted_order_irrelevant _ _ Hp), (Permutation_length Hp). }
  pose proof (Hperm _ Hnd1 Hs1) as Hp1. pose proof (Hperm _ Hnd2 Hs2) as Hp2.
  split; [by rewrite (Hsame _ Hp1), (Hsame _ Hp2)|]. split; [by apply Hsame|].
  split; [apply sorted_order_irrelevant; by rewrite Hp1, Hp2|].
  split; [apply sorted_StronglySorted|].
  destruct (main_from_spec urlopen enum1) as (ts & Hm & _). by rewrite Hm.
Qed.

(** Two URLs, handed out by the set in either order. *)
Lemma run_is_reproducible_witness :
  let urlopen := λ (_ : world) (url : string) (_ : Z), Responded 200 url in
  main_from urlopen ["https://b.io/x"; "https://a.io/y"] =
  main_from urlopen ["https://a.io/y"; "https://b.io/x"].
Proof.
  intros urlopen.
  apply (run_is_reproducible urlopen [Some "https://b.io/x and https://a.io/y"]).
  - apply (bool_decide_unpack _). vm_compute. exact I.
  - vm_compute. reflexivity.
  - apply (bool_decide_unpack _). vm_compute. exact I.
  - vm_compute. reflexivity.
Defined.

(** C3, as the specification states it, fails: the loop tests
    [status == 200], so a probe that completes with another 2xx status is
    filed under neither [valid] nor [redirected].  A 204 answer with no
    redirect ends up in the [error] bucket. *)
Lemma status_204_filed_as_error :
  let urlopen := λ (_ : world) (url : string) (_ : Z), Responded 204 url in
  classify "https://api.site.io/ping" = Probeable ∧
  check_url urlopen "https://api.site.io/ping" 10 [] =
    (Ret ("https://api.site.io/ping", 204%Z, "OK"), ["https://api.site.io/ping"]) ∧
  bucket_of ("https://api.site.io/ping", 204%Z, "OK") = error ∧
  ∃ out log,
    main urlopen [Some "Ping: https://api.site.io/ping"] = (Ret out, log) ∧
    r_valid (report_results (written out)) = [] ∧
    r_redirected (report_results (written out)) = [] ∧
    r_error (report_results (written out)) =
      [("https://api.site.io/ping", 204%Z, "OK")].
Proof.
  cbv zeta. split; [vm_compute; reflexivity|]. split; [vm_compute; reflexivity|].
  split; [vm_compute; reflexivity|].
  eexists _, _. split; [vm_compute; reflexivity|]. by cbn.
Qed.

(** C3, amended.  For every probeable URL whose probe completes with
    status 200: the entry goes to [valid] or [redirected] and to no other
    bucket; to [valid] when the final URL is the requested one, to
    [redirected] when it differs (the final URL being an address, not the
    text OK that the code uses as its no-redirect mark). *)
Theorem status_200_valid_or_redirected
    (urlopen : world → string → Z → attempt)
    (url : string) (timeout : Z) (w : world) (final_url : string) :
  classify url = Probeable →
  urlopen w (normalize url) timeout = Responded 200 final_url →
  ∃ t,
    check_url urlopen url timeout w = (Ret t, w ++ [normalize url]) ∧
    (bucket_of t = valid ∨ bucket_of t = redirected) ∧
    (final_url = normalize url → bucket_of t = valid) ∧
    (final_url ≠ normalize url → final_url ≠ "OK" → bucket_of t = redirected).
Proof.
  intros Hp Hnet. rewrite check_url_probeable, Hnet by done.
  eexists. split; [done|]. unfold bucket_of. cbn [Z.eqb negb].
  destruct (String.eqb_spec final_url (normalize url)) as [->|Hne].
  - cbn. split; [by left|]. split; [done|]. by intros [].
  - destruct (String.eqb_spec final_url "OK") as [->|Hok]; cbn.
    + split; [by left|]. split; [done|]. by intros _ [].
    + split; [by right|]. split; [done|]. done.
Qed.

(** A request that is redirected to the host with the www prefix. *)
Lemma status_200_valid_or_redirected_witness :
  let urlopen := λ (_ : world) (_ : string) (_ : Z),
                   Responded 200 "https://www.site.io/docs/" in
  ∃ t, check_url urlopen "https://site.io/docs." 10 [] =
         (Ret t, [] ++ [normalize "https://site.io/docs."]) ∧
       bucket_of t = redirected.
Proof.
  intros urlopen.
  destruct (status_200_valid_or_redirected urlopen "https://site.io/docs." 10 []
              "https://www.site.io/docs/") as (t & Ht & _ & _ & Hr).
  - vm_compute. reflexivity.
  - reflexivity.
  - exists t. split; [exact Ht|]. apply Hr.
    + vm_compute. discriminate.
    + discriminate.
Defined.

(** C4.  The pre-flight decision depends on the URL alone and always
    lands on one of three outcomes, which [check_url] shows by what it
    does: TEMPLATE_URL without a request, EXAMPLE_URL without a request,
    or a request.  The template test comes first, so a URL with both a
    template marker and an example marker is a template. *)
Theorem preflight_total_template_first
    (urlopen : world → string → Z → attempt)
    (url : string) (timeout : Z) (w : world) :
  (exists! c, classify url = c) ∧
  match classify url with
  | Template =>
      check_url urlopen url timeout w = (Ret (url, (-1)%Z, "TEMPLATE_URL"), w)
  | ExampleDomain =>
      check_url urlopen url timeout w = (Ret (url, (-1)%Z, "EXAMPLE_URL"), w)
  | Probeable =>
      (check_url urlopen url timeout w).2 = w ++ [normalize url]
  end ∧
  (classify url = Template ↔ any_in TEMPLATE_MARKERS url = true) ∧
  (classify url = ExampleDomain ↔
     any_in TEMPLATE_MARKERS url = false ∧ any_in EXAMPLE_MARKERS url = true) ∧
  (classify url = Probeable ↔
     any_in TEMPLATE_MARKERS url = false ∧ any_in EXAMPLE_MARKERS url = false) ∧
  (any_in TEMPLATE_MARKERS url = true → any_in EXAMPLE_MARKERS url = true →
     classify url = Template ∧
     check_url urlopen url timeout w = (Ret (url, (-1)%Z, "TEMPLATE_URL"), w)).
Proof.
  split; [exists (classify url); split; [done|by intros ? <-]|].
  split.
  { destruct (classify url) eqn:Hc.
    - rewrite check_url_exempt by congruence.
      unfold classify in Hc. by destruct (any_in TEMPLATE_MARKERS url), (any_in EXAMPLE_MARKERS url).
    - rewrite check_url_exempt by congruence.
      unfold classify in Hc. by destruct (any_in TEMPLATE_MARKERS url), (any_in EXAMPLE_MARKERS url).
    - by rewrite check_url_probeable. }
  unfold classify, check_url.
  destruct (any_in TEMPLATE_MARKERS url), (any_in EXAMPLE_MARKERS url);
    repeat split; try done; try (by intros []); intros; done.
Qed.

(** C5.  An exempt URL costs no request.  [check_url] returns at once and
    leaves the world as it was, the entry carries the URL as extracted and
    goes to [template] or [example]; in a whole run the entry is in that
    bucket of the report, and the requests of the run are those of the run
    without this URL. *)
Theorem exempt_url_never_requested
    (urlopen : world → string → Z → attempt)
    (url : string) (timeout : Z) (w : world) :
  classify url ≠ Probeable →
  ∃ marker b,
    check_url urlopen url timeout w = (Ret (url, (-1)%Z, marker), w) ∧
    bucket_of (url, (-1)%Z, marker) = b ∧
    (classify url = Template → marker = "TEMPLATE_URL" ∧ b = template) ∧
    (classify url = ExampleDomain → marker = "EXAMPLE_URL" ∧ b = example) ∧
    ∀ corpus, url ∈ collect corpus →
      ∃ out log,
        main urlopen corpus = (Ret out, log) ∧
        (url, (-1)%Z, marker) ∈ get b (report_results (written out)) ∧
        log = requests_of (filter (λ u, u ≠ url) (sorted (elements (collect corpus)))).
Proof.
  intros Hex.
  eexists _, _. split; [by apply check_url_exempt|]. split; [done|].
  split; [|split].
  - unfold classify. destruct (any_in TEMPLATE_MARKERS url); [done|].
    by destruct (any_in EXAMPLE_MARKERS url).
  - unfold classify. destruct (any_in TEMPLATE_MARKERS url); [done|].
    by destruct (any_in EXAMPLE_MARKERS url).
  - intros corpus Hin.
    destruct (main_files_every_url urlopen corpus url Hin)
      as (out & log & t & w0 & Hm & Hlog & _ & Ht & Hb).
    rewrite check_url_exempt in Ht by done. injection Ht as <-.
    exists out, log. split; [done|]. split; [done|].
    rewrite Hlog. by apply requests_of_without.
Qed.

(** A URL with a bracketed placeholder, checked after one earlier request. *)
Lemma exempt_url_never_requested_witness :
  let urlopen := λ (_ : world) (url : string) (_ : Z), Responded 200 url in
  ∃ marker b,
    check_url urlopen "https://api.site.org/v1/projects/[projectId]/backups" 10
              ["https://site.org/"] =
      (Ret ("https://api.site.org/v1/projects/[projectId]/backups", (-1)%Z, marker),
       ["https://site.org/"]) ∧
    bucket_of ("https://api.site.org/v1/projects/[projectId]/backups", (-1)%Z, marker) = b.
Proof.
  intros urlopen.
  destruct (exempt_url_never_requested urlopen
              "https://api.site.org/v1/projects/[projectId]/backups" 10
              ["https://site.org/"]) as (marker & b & Hc & Hb & _).
  - vm_compute. discriminate.
  - by exists marker, b.
Defined.




(** C7.  A probe that fails before there is a status raises something
    other than [HTTPError] ([URLError] for a name or connection failure,
    a bare time-out, reset or TLS error otherwise).  [check_url] returns
    it as an entry with status -2 or -3 and the loop files that under
    [error].  Nothing is ever passed on as an exception: [check_url]
    returns for every input and every run reaches its report. *)
Theorem transport_failure_is_data
    (urlopen : world → string → Z → attempt)
    (url : string) (timeout : Z) (w : world) (e : exn) :
  classify url = Probeable →
  urlopen w (normalize url) timeout = Raised e →
  isinstance e HTTPError = false →
  (∃ s msg,
     check_url urlopen url timeout w =
       (Ret (normalize url, s, msg), w ++ [normalize url]) ∧
     (s = -2 ∨ s = -3)%Z ∧
     msg = (if isinstance e URLError then exn_reason e else exn_str e) ∧
     bucket_of (normalize url, s, msg) = error) ∧
  (∀ url' timeout' w', ∃ t w'', check_url urlopen url' timeout' w' = (Ret t, w'')) ∧
  (∀ corpus, ∃ out log, main urlopen corpus = (Ret out, log)) ∧
  (∀ corpus,
     url ∈ collect corpus →
     (∀ w0, urlopen w0 (normalize url) 10%Z = Raised e) →
     ∃ out log s msg,
       main urlopen corpus = (Ret out, log) ∧
       (normalize url, s, msg) ∈ r_error (report_results (written out))).
Proof.
  intros Hp Hnet He.
  assert (∀ w0 timeout0, urlopen w0 (normalize url) timeout0 = Raised e →
            ∃ s msg,
              check_url urlopen url timeout0 w0 =
                (Ret (normalize url, s, msg), w0 ++ [normalize url]) ∧
              (s = -2 ∨ s = -3)%Z ∧
              msg = (if isinstance e URLError then exn_reason e else exn_str e) ∧
              bucket_of (normalize url, s, msg) = error) as Hone.
  { intros w0 timeout0 Hn. rewrite check_url_probeable, Hn, He by done.
    destruct (isinstance e URLError); eexists _, _; (split; [done|]); auto. }
  split; [by apply Hone|]. split; [|split].
  - intros url' timeout' w'.
    destruct (check_url_returns urlopen url' timeout' w') as [t Ht]. eauto.
  - intros corpus.
    destruct (main_from_spec urlopen (elements (collect corpus))) as (ts & Hm & _).
    unfold main. rewrite Hm. eauto.
  - intros corpus Hin Hall.
    destruct (main_files_every_url urlopen corpus url Hin)
      as (out & log & t & w0 & Hm & _ & _ & Ht & Hbt).
    destruct (Hone w0 10%Z (Hall w0)) as (s & msg & Hc & _ & _ & Hb).
    rewrite Hc in Ht. injection Ht as <-. rewrite Hb in Hbt.
    by exists out, log, s, msg.
Qed.

(** A read that times out after the connection was made. *)
Lemma transport_failure_is_data_witness :
  let timed_out := mk_exn TimeoutError 0 "" "The read operation timed out" in
  let urlopen := λ (_ : world) (_ : string) (_ : Z), Raised timed_out in
  ∃ s msg,
    check_url urlopen "https://slow.site.io/feed" 10 [] =
      (Ret (normalize "https://slow.site.io/feed", s, msg),
       [] ++ [normalize "https://slow.site.io/feed"]) ∧
    bucket_of (normalize "https://slow.site.io/feed", s, msg) = error.
Proof.
  intros timed_out urlopen.
  destruct (transport_failure_is_data urlopen "https://slow.site.io/feed" 10 []
              timed_out) as ((s & msg & Hc & _ & _ & Hb) & _).
  - vm_compute. reflexivity.
  - reflexivity.
  - vm_compute. reflexivity.
  - by exists s, msg.
Defined.

(** C8, as the specification states it, fails on two counts.  [rstrip] is
    given six characters only, so a trailing bracket (or an exclamation or
    question mark) stays: the autolink form of Markdown leaves its closing
    angle bracket on the match, and that is what is requested and
    reported.  And an exempt URL is returned before the clean-up, so it is
    reported with its trailing comma. *)
Lemma trailing_bracket_not_stripped :
  let urlopen := λ (_ : world) (url : string) (_ : Z), Responded 200 url in
  Re.findall "See <https://a.io/guide> or https://example.com/widgets, soon"
    = ["https://a.io/guide>"; "https://example.com/widgets,"] ∧
  check_url urlopen "https://a.io/guide>" 10 [] =
    (Ret ("https://a.io/guide>", 200%Z, "OK"), ["https://a.io/guide>"]) ∧
  spec_normalize "https://a.io/guide>" = "https://a.io/guide" ∧
  normalize "https://a.io/guide>" ≠ spec_normalize "https://a.io/guide>" ∧
  check_url urlopen "https://example.com/widgets," 10 [] =
    (Ret ("https://example.com/widgets,", (-1)%Z, "EXAMPLE_URL"), []) ∧
  spec_normalize "https://example.com/widgets," = "https://example.com/widgets".
Proof.
  cbv zeta. repeat split; try (vm_compute; reflexivity).
  vm_compute. discriminate.
Qed.

(** C8, amended.  The clean-up removes the longest suffix made of the six
    characters single quote, double quote, full stop, comma, semicolon and
    colon, and nothing else: the raw URL is the cleaned one followed by
    such a suffix, and the cleaned one does not end in any of the six.
    That form is what a probeable URL is requested and reported with; an
    exempt URL is reported as extracted. *)
Theorem normalize_strips_six_characters
    (urlopen : world → string → Z → attempt)
    (raw : string) (timeout : Z) (w : world) :
  (∃ suffix,
     raw = normalize raw +:+ suffix ∧
     Str.all_chars (λ c, Str.char_in c STRIP_CHARS) suffix = true) ∧
  (∀ c, Str.last (normalize raw) = Some c → Str.char_in c STRIP_CHARS = false) ∧
  (classify raw = Probeable →
     ∃ s d, check_url urlopen raw timeout w =
              (Ret (normalize raw, s, d), w ++ [normalize raw])) ∧
  (classify raw ≠ Probeable →
     ∃ s d, check_url urlopen raw timeout w = (Ret (raw, s, d), w)).
Proof.
  split; [apply rstrip_suffix|].
  split; [intros c; apply rstrip_last|].
  split.
  - intros Hp. rewrite check_url_probeable by done.
    destruct (urlopen _ _ _) as [?|e]; [eauto|].
    destruct (isinstance e HTTPError), (isinstance e URLError); eauto.
  - intros Hex. rewrite check_url_exempt by done. eauto.
Qed.

(** C10.  [check_url] returns a triple for every input and lets no
    exception through.  An exempt URL gives status -1 and no request.
    Otherwise the status is the one of the response, or, when the probe
    raises: the code of an [HTTPError], -2 for any other [URLError], -3
    for every other exception (a malformed URL among them), with the
    reason, respectively the text of the exception, as detail. *)
Theorem check_url_total
    (urlopen : world → string → Z → attempt)
    (url : string) (timeout : Z) (w : world) :
  ∃ u s d w',
    check_url urlopen url timeout w = (Ret (u, s, d), w') ∧
    (classify url ≠ Probeable →
       u = url ∧ s = (-1)%Z ∧ w' = w ∧
       d = if any_in TEMPLATE_MARKERS url then "TEMPLATE_URL" else "EXAMPLE_URL") ∧
    (classify url = Probeable →
       u = normalize url ∧ w' = w ++ [normalize url] ∧
       match urlopen w (normalize url) timeout with
       | Responded status final_url =>
           s = status ∧
           d = if String.eqb final_url (normalize url) then "OK" else final_url
       | Raised e =>
           (isinstance e HTTPError = true → s = exn_code e ∧ d = exn_reason e) ∧
           (isinstance e HTTPError = false → isinstance e URLError = true →
              s = (-2)%Z ∧ d = exn_reason e) ∧
           (isinstance e URLError = false → s = (-3)%Z ∧ d = exn_str e)
       end).
Proof.
  destruct (decide (classify url = Probeable)) as [Hp|Hex].
  - rewrite check_url_probeable by done.
    destruct (urlopen w (normalize url) timeout) as [status final_url|e] eqn:Hnet.
    + eexists _, _, _, _. split; [done|]. split; [done|]. done.
    + pose proof (isinstance_HTTPError_URLError e) as Hsub.
      destruct (isinstance e HTTPError);
        [rewrite (Hsub eq_refl)|destruct (isinstance e URLError)];
        eexists _, _, _, _; (split; [done|]); (split; [done|]); intros _;
        repeat split; done.
  - rewrite check_url_exempt by done.
    eexists _, _, _, _. split; [done|]. split; [done|]. done.
Qed.

(** ** Further properties: strings and the extractor *)

Lemma prefix_app p s : String.prefix p (p +:+ s) = true.
Proof.
  induction p as [|a p IH]; [by destruct s|].
  change (String.prefix (String a p) (String a (p +:+ s)) = true).
  cbn [String.prefix]. by destruct (ascii_dec a a).
Qed.

Lemma prefix_inv p s : String.prefix p s = true → ∃ r, s = p +:+ r.
Proof.
  revert s. induction p as [|a p IH]; intros s Hp; [by exists s|].
  destruct s as [|b s]; [done|]. cbn [String.prefix] in Hp.
  destruct (ascii_dec a b) as [->|]; [|done].
  destruct (IH s Hp) as [r ->]. by exists r.
Qed.

Lemma append_assoc (a b c : string) : (a +:+ b) +:+ c = a +:+ (b +:+ c).
Proof.
  induction a as [|x a IH]; [done|].
  change (String x ((a +:+ b) +:+ c) = String x (a +:+ (b +:+ c))). by rewrite IH.
Qed.

Lemma append_empty_r (a : string) : a +:+ "" = a.
Proof.
  induction a as [|x a IH]; [done|].
  change (String x (a +:+ "") = String x a). by rewrite IH.
Qed.

(** [x in s] holds exactly when [s] splits around an occurrence of [x]. *)
Lemma contains_spec x s :
  Str.contains x s = true ↔ ∃ pre post, s = pre +:+ (x +:+ post).
Proof.
  split.
  - induction s as [|c s IH]; cbn [Str.contains]; intros [Hp|Hc]%orb_true_iff.
    + apply prefix_inv in Hp as [r ->]. by exists "", r.
    + done.
    + apply prefix_inv in Hp as [r ->]. by exists "", r.
    + destruct (IH Hc) as (pre & post & ->). by exists (String c pre), post.
  - intros (pre & post & ->). induction pre as [|c pre IH].
    + change (Str.contains x (x +:+ post) = true).
      destruct (x +:+ post) eqn:Heq; cbn [Str.contains]; rewrite <-Heq;
        by rewrite prefix_app.
    + change (Str.contains x (String c (pre +:+ (x +:+ post))) = true).
      cbn [Str.contains]. rewrite IH. apply orb_true_r.
Qed.

Lemma contains_app_l x s t :
  Str.contains x s = true → Str.contains x (s +:+ t) = true.
Proof.
  intros (pre & post & ->)%contains_spec. apply contains_spec.
  exists pre, (post +:+ t). by rewrite !append_assoc.
Qed.

Lemma take_while_spec p s :
  ∃ rest,
    s = Str.take_while p s +:+ rest ∧
    Str.all_chars p (Str.take_while p s) = true ∧
    (rest = "" ∨ ∃ c r, rest = String c r ∧ p c = false).
Proof.
  induction s as [|c s (rest & Hs & Hall & Hrest)].
  - exists "". split; [done|]. split; [done|]. by left.
  - cbn [Str.take_while]. destruct (p c) eqn:Hc.
    + exists rest. cbn [Str.all_chars]. rewrite Hc, Hall. split; [|done].
      change (String c s = String c (Str.take_while p s +:+ rest)). by rewrite <-Hs.
    + exists (String c s). split; [done|]. split; [done|]. right. eauto.
Qed.

(** A successful match is a scheme and a non-empty run of admitted
    characters, it heads the text, and it is as long as it can be. *)
Lemma match_here_spec s m :
  Re.match_here s = Some m →
  ∃ p body rest,
    m = p +:+ body ∧ (p = "http://" ∨ p = "https://") ∧
    body ≠ "" ∧ Str.all_chars Re.url_char body = true ∧
    s = m +:+ rest ∧
    (rest = "" ∨ ∃ c r, rest = String c r ∧ Re.url_char c = false).
Proof.
  unfold Re.match_here.
  assert (∀ p t, s = p +:+ t → Str.drop (String.length p) s = t) as Hdrop.
  { intros p t ->. induction p as [|a p IH]; [done|exact IH]. }
  destruct (String.prefix "https://" s) eqn:H1;
    [|destruct (String.prefix "http://" s) eqn:H2; [|done]].
  - apply prefix_inv in H1 as [t Ht]. rewrite (Hdrop _ _ Ht).
    destruct (take_while_spec Re.url_char t) as (rest & Hs & Hall & Hrest).
    destruct (Str.take_while Re.url_char t) as [|c body] eqn:Hb; [done|].
    intros [= <-]. exists "https://", (String c body), rest.
    split; [done|]. split; [by right|]. split; [done|]. split; [done|].
    split; [|done]. by rewrite Ht, Hs at 1; rewrite append_assoc.
  - apply prefix_inv in H2 as [t Ht]. rewrite (Hdrop _ _ Ht).
    destruct (take_while_spec Re.url_char t) as (rest & Hs & Hall & Hrest).
    destruct (Str.take_while Re.url_char t) as [|c body] eqn:Hb; [done|].
    intros [= <-]. exists "http://", (String c body), rest.
    split; [done|]. split; [by left|]. split; [done|]. split; [done|].
    split; [|done]. by rewrite Ht, Hs at 1; rewrite append_assoc.
Qed.

(** The skip counter only moves the starting point of the scan. *)
Lemma findall_from_drop k s :
  Re.findall_from k s = Re.findall_from 0 (Str.drop k s).
Proof.
  revert k. induction s as [|c s IH]; intros [|k]; try done.
  cbn [Re.findall_from Str.drop]. apply IH.
Qed.

(** Every match found heads some tail of the text. *)
Lemma elem_of_findall_from u k s :
  u ∈ Re.findall_from k s →
  ∃ pre post, s = pre +:+ post ∧ Re.match_here post = Some u.
Proof.
  revert k. induction s as [|c s IH]; intros k; [by intros ?%elem_of_nil|].
  cbn [Re.findall_from].
  assert (∀ k', u ∈ Re.findall_from k' s →
                ∃ pre post, String c s = pre +:+ post ∧ Re.match_here post = Some u)
    as Hrec.
  { intros k' (pre & post & -> & Hm)%IH. by exists (String c pre), post. }
  destruct k as [|k]; [|apply Hrec].
  destruct (Re.match_here (String c s)) as [m|] eqn:Hm; [|apply Hrec].
  intros [->|Hin]%elem_of_cons; [by exists "", (String c s)|by eapply Hrec].
Qed.

Lemma drop_app p t : Str.drop (String.length p) (p +:+ t) = t.
Proof. induction p as [|a p IH]; [done|exact IH]. Qed.

Lemma all_chars_app q a b :
  Str.all_chars q (a +:+ b) = Str.all_chars q a && Str.all_chars q b.
Proof.
  induction a as [|c a IH]; [done|].
  change (Str.all_chars q (String c (a +:+ b)) =
          Str.all_chars q (String c a) && Str.all_chars q b).
  cbn [Str.all_chars]. by rewrite IH, andb_assoc.
Qed.

Lemma elem_of_extract content u :
  u ∈ extract_urls_from_file content ↔ u ∈ Re.findall content.
Proof. apply elem_of_list_to_set. Qed.

(** X1.  What the extractor hands out always has the lexical shape of the
    pattern: one of the two schemes, then at least one character, and no
    white space, closing parenthesis, quote or backquote anywhere. *)
Theorem extracted_url_shape (content u : string) :
  u ∈ extract_urls_from_file content →
  ∃ p body,
    u = p +:+ body ∧ (p = "http://" ∨ p = "https://") ∧ body ≠ "" ∧
    Str.all_chars Re.url_char u = true.
Proof.
  intros (pre & post & _ & Hm)%elem_of_extract%elem_of_findall_from.
  destruct (match_here_spec _ _ Hm) as (p & body & rest & -> & Hp & Hb & Hall & _).
  exists p, body. split; [done|]. split; [done|]. split; [done|].
  rewrite all_chars_app, Hall. by destruct Hp as [-> | ->].
Qed.

(** A link in the middle of a sentence. *)
Lemma extracted_url_shape_witness :
  ∃ p body, "https://a.io/x" = p +:+ body ∧ (p = "http://" ∨ p = "https://") ∧
            body ≠ "" ∧ Str.all_chars Re.url_char "https://a.io/x" = true.
Proof.
  apply (extracted_url_shape "see https://a.io/x now").
  apply (bool_decide_unpack _). vm_compute. exact I.
Defined.

(** X2.  The extractor invents nothing: every URL it returns stands in the
    text as it is. *)
Theorem extracted_url_occurs (content u : string) :
  u ∈ extract_urls_from_file content → Str.contains u content = true.
Proof.
  intros (pre & post & -> & Hm)%elem_of_extract%elem_of_findall_from.
  destruct (match_here_spec _ _ Hm) as (p & body & rest & _ & _ & _ & _ & -> & _).
  apply contains_spec. by exists pre, rest.
Qed.

Lemma extracted_url_occurs_witness :
  Str.contains "http://a.b/c" "(http://a.b/c) and more" = true.
Proof.
  apply extracted_url_occurs.
  apply (bool_decide_unpack _). vm_compute. exact I.
Defined.

(** X3.  Matches do not overlap and are greedy: after a match at the head
    of the text the scan goes on right behind it, and the character that
    follows the match, if there is one, is one the pattern excludes. *)
Theorem findall_resumes_after_match (s m : string) :
  Re.match_here s = Some m →
  Re.findall s = m :: Re.findall (Str.drop (String.length m) s) ∧
  match Str.drop (String.length m) s with
  | EmptyString => True
  | String c _ => Re.url_char c = false
  end.
Proof.
  intros Hm.
  destruct (match_here_spec _ _ Hm) as (p & body & rest & Hmp & Hp & Hb & _ & Hs & Hrest).
  split.
  - destruct s as [|c s]; [done|].
    unfold Re.findall. cbn [Re.findall_from]. rewrite Hm. f_equal.
    rewrite findall_from_drop. f_equal.
    destruct m as [|c' m]; [|by cbn; rewrite Nat.sub_0_r].
    by destruct Hp as [-> | ->].
  - rewrite Hs, drop_app.
    by destruct Hrest as [->|(c & r & -> & Hc)].
Qed.

Lemma findall_resumes_after_match_witness :
  Re.findall "http://a.b/c, https://d.e/f" =
    "http://a.b/c," ::
    Re.findall (Str.drop (String.length "http://a.b/c,") "http://a.b/c, https://d.e/f").
Proof.
  apply (findall_resumes_after_match "http://a.b/c, https://d.e/f" "http://a.b/c,").
  vm_compute. reflexivity.
Defined.

(** X4.  Files that cannot be read, or that do not hold the letters http
    anywhere, give an empty set of URLs; the verification loop then makes
    no request and files nothing, and the report object built from its
    results has a total of 0 and six empty buckets. *)
Theorem run_without_links
    (urlopen : world → string → Z → attempt) (corpus : list file) :
  (∀ content, Some content ∈ corpus → Str.contains "http" content = false) →
  collect corpus = ∅ ∧
  verify urlopen (sorted (elements (collect corpus))) empty_results [] =
    (Ret empty_results, []) ∧
  make_report (length (elements (collect corpus))) empty_results =
    {| report_summary := mk_summary 0 0 0 0 0 0 0;
       report_results := mk_results [] [] [] [] [] [] |}.
Proof.
  intros Hno.
  assert (collect corpus = ∅) as Hempty.
  { apply elem_of_equiv_empty_L. intros u (content & Hin & Hu)%elem_of_collect.
    apply elem_of_findall_from in Hu as (pre & post & -> & Hm).
    destruct (match_here_spec _ _ Hm) as (p & body & rest & -> & Hp & _ & _ & -> & _).
    specialize (Hno _ Hin). apply not_true_iff_false in Hno. apply Hno.
    apply contains_spec.
    destruct Hp as [-> | ->].
    - by exists pre, ("://" +:+ body +:+ rest).
    - by exists pre, ("s://" +:+ body +:+ rest). }
  split; [done|]. by rewrite Hempty, elements_empty.
Qed.

Lemma run_without_links_witness :
  collect [None; Some "plain text, see ftp://files.site.io/readme"] = ∅.
Proof.
  apply (run_without_links (λ _ url _, Responded 200 url)
           [None; Some "plain text, see ftp://files.site.io/readme"]).
  intros content [[=]|[[= ->]|[]%elem_of_nil]%elem_of_cons]%elem_of_cons.
  vm_compute. reflexivity.
Defined.

(** ** Further properties: the clean-up and the requests *)

Lemma append_nonempty (a b : string) : a ≠ "" → a +:+ b ≠ "".
Proof. by destruct a. Qed.

(** [rstrip] never reaches past a character it is not told to strip. *)
Lemma rstrip_app_keep chars p b c :
  Str.last p = Some c → Str.char_in c chars = false →
  Str.rstrip chars (p +:+ b) = p +:+ Str.rstrip chars b.
Proof.
  intros Hl Hc. induction p as [|a p IH]; [done|].
  change (Str.rstrip chars (String a (p +:+ b)) = String a (p +:+ Str.rstrip chars b)).
  cbn [Str.rstrip]. destruct p as [|a' p].
  - injection Hl as ->. change ("" +:+ ?x) with x.
    destruct (Str.rstrip chars b); [by rewrite Hc|done].
  - rewrite IH by done.
    by change (String a' p +:+ ?x) with (String a' (p +:+ x)).
Qed.

(** Only the characters that occur in the string matter to [rstrip]. *)
Lemma rstrip_ext chars1 chars2 s :
  Str.all_chars (λ c, bool_decide (Str.char_in c chars1 = Str.char_in c chars2)) s = true →
  Str.rstrip chars1 s = Str.rstrip chars2 s.
Proof.
  induction s as [|a s IH]; [done|]. cbn [Str.all_chars Str.rstrip].
  intros [Ha Hs]%andb_true_iff. apply bool_decide_eq_true in Ha.
  by rewrite (IH Hs), Ha.
Qed.

Lemma rstrip_fixed chars s :
  (∀ c, Str.last s = Some c → Str.char_in c chars = false) →
  Str.rstrip chars s = s.
Proof.
  induction s as [|a s IH]; [done|]. intros Hl. cbn [Str.rstrip].
  destruct s as [|a' s].
  - cbn. by rewrite (Hl a).
  - by rewrite IH.
Qed.

Lemma normalize_idempotent url : normalize (normalize url) = normalize url.
Proof. apply rstrip_fixed. intros c. apply rstrip_last. Qed.

Lemma any_in_app_l markers s t :
  any_in markers s = true → any_in markers (s +:+ t) = true.
Proof.
  unfold any_in. rewrite !existsb_exists.
  intros (x & Hx & Hc). exists x. split; [done|]. by apply contains_app_l.
Qed.

(** The clean-up cannot bring a marker into a URL. *)
Lemma classify_normalize url :
  classify url = Probeable → classify (normalize url) = Probeable.
Proof.
  unfold classify, normalize.
  destruct (rstrip_suffix STRIP_CHARS url) as (suffix & Hs & _).
  destruct (any_in TEMPLATE_MARKERS url) eqn:Ht; [done|].
  destruct (any_in EXAMPLE_MARKERS url) eqn:He; [done|]. intros _.
  destruct (any_in TEMPLATE_MARKERS (Str.rstrip STRIP_CHARS url)) eqn:Ht'.
  { apply (any_in_app_l _ _ suffix) in Ht'. rewrite <-Hs in Ht'. congruence. }
  destruct (any_in EXAMPLE_MARKERS (Str.rstrip STRIP_CHARS url)) eqn:He'; [|done].
  apply (any_in_app_l _ _ suffix) in He'. rewrite <-Hs in He'. congruence.
Qed.

(** After a scheme, and with no quote in the rest, the clean-up is the
    stripping of four characters from the rest. *)
Lemma normalize_scheme_body (p body : string) :
  p = "http://" ∨ p = "https://" →
  Str.all_chars Re.url_char body = true →
  normalize (p +:+ body) = p +:+ Str.rstrip ["."; ","; ";"; ":"]%char body.
Proof.
  intros Hp Hall. unfold normalize.
  rewrite (rstrip_app_keep STRIP_CHARS p body "/"%char)
    by (by destruct Hp as [-> | ->]).
  f_equal. apply rstrip_ext. clear -Hall.
  induction body as [|c body IH]; [done|]. cbn [Str.all_chars] in *.
  apply andb_true_iff in Hall as [Hc Hall]. rewrite (IH Hall), andb_true_r.
  apply bool_decide_eq_true. unfold Re.url_char in Hc.
  apply andb_true_iff in Hc as [_ Hq]. apply negb_true_iff in Hq.
  unfold Str.char_in in *. apply bool_decide_eq_false in Hq.
  apply bool_decide_ext. unfold STRIP_CHARS.
  rewrite !elem_of_cons, !elem_of_nil in *. tauto.
Qed.

(** X5.  On an extracted URL the clean-up touches the part after the
    scheme only, and of the six characters only four can be there: the
    text never holds a quote, so the result is the scheme followed by the
    rest without its trailing full stops, commas, semicolons and colons. *)
Theorem normalize_extracted_keeps_scheme (content u : string) :
  u ∈ extract_urls_from_file content →
  ∃ p body,
    u = p +:+ body ∧ (p = "http://" ∨ p = "https://") ∧
    normalize u = p +:+ Str.rstrip ["."; ","; ";"; ":"]%char body ∧
    String.prefix p (normalize u) = true.
Proof.
  intros (pre & post & _ & Hm)%elem_of_extract%elem_of_findall_from.
  destruct (match_here_spec _ _ Hm) as (p & body & rest & -> & Hp & Hb & Hall & _).
  exists p, body. split; [done|]. split; [done|].
  rewrite (normalize_scheme_body p body Hp Hall).
  split; [done|]. apply prefix_app.
Qed.

Lemma normalize_extracted_keeps_scheme_witness :
  ∃ p body,
    "http://a.b/c.;" = p +:+ body ∧ (p = "http://" ∨ p = "https://") ∧
    normalize "http://a.b/c.;" = p +:+ Str.rstrip ["."; ","; ";"; ":"]%char body ∧
    String.prefix p (normalize "http://a.b/c.;") = true.
Proof.
  apply (normalize_extracted_keeps_scheme "at http://a.b/c.; or so").
  apply (bool_decide_unpack _). vm_compute. exact I.
Defined.

(** X6.  What a run asks the network for: every request is the cleaned
    form of a probeable URL of the set; it holds no template marker and no
    example marker, it begins with one of the two schemes, and it does not
    end in a character that the clean-up strips. *)
Theorem requests_are_clean_probeable_urls
    (urlopen : world → string → Z → attempt) (corpus : list file) (req : string) :
  req ∈ (main urlopen corpus).2 →
  (∃ raw, raw ∈ collect corpus ∧ classify raw = Probeable ∧ req = normalize raw) ∧
  any_in TEMPLATE_MARKERS req = false ∧
  any_in EXAMPLE_MARKERS req = false ∧
  (String.prefix "http://" req = true ∨ String.prefix "https://" req = true) ∧
  (∀ c, Str.last req = Some c → Str.char_in c STRIP_CHARS = false).
Proof.
  unfold main.
  destruct (main_from_spec urlopen (elements (collect corpus))) as (ts & -> & _).
  cbn [snd]. unfold requests_of.
  intros (raw & -> & [Hp Hin]%list_elem_of_filter)%list_elem_of_fmap.
  apply sorted_elements in Hin.
  split; [by exists raw|].
  pose proof (classify_normalize raw Hp) as Hc. unfold classify in Hc.
  destruct (any_in TEMPLATE_MARKERS (normalize raw)); [done|].
  destruct (any_in EXAMPLE_MARKERS (normalize raw)); [done|].
  split; [done|]. split; [done|]. split; [|intros c; apply rstrip_last].
  apply elem_of_collect in Hin as (content & _ & Hu).
  apply elem_of_findall_from in Hu as (pre & post & _ & Hm).
  destruct (match_here_spec _ _ Hm) as (p & body & rest & -> & Hs & _ & Hall & _).
  rewrite (normalize_scheme_body p body Hs Hall).
  destruct Hs as [-> | ->]; [left|right]; apply prefix_app.
Qed.

Lemma requests_are_clean_probeable_urls_witness :
  any_in TEMPLATE_MARKERS "https://a.io/x" = false.
Proof.
  apply (requests_are_clean_probeable_urls (λ _ url _, Responded 200 url)
           [Some "read https://a.io/x."] "https://a.io/x").
  apply (bool_decide_unpack _). vm_compute. exact I.
Defined.

(** X7.  [check_url] settles on the URL it reports: called again with the
    first component of its result, in the same world, it does the same
    request and gives the same result. *)
Theorem check_url_stable_on_reported_url
    (urlopen : world → string → Z → attempt)
    (url : string) (timeout : Z) (w : world) :
  ∃ u s d w',
    check_url urlopen url timeout w = (Ret (u, s, d), w') ∧
    check_url urlopen u timeout w = (Ret (u, s, d), w').
Proof.
  destruct (decide (classify url = Probeable)) as [Hp|Hex].
  - pose proof (check_url_probeable urlopen url timeout w Hp) as H1.
    pose proof (check_url_probeable urlopen (normalize url) timeout w
                  (classify_normalize _ Hp)) as H2.
    rewrite normalize_idempotent in H2.
    destruct (urlopen w (normalize url) timeout) as [status final_url|e].
    + eexists _, _, _, _. split; [exact H1|exact H2].
    + destruct (isinstance e HTTPError), (isinstance e URLError);
        eexists _, _, _, _; (split; [exact H1|exact H2]).
  - pose proof (check_url_exempt urlopen url timeout w Hex) as H1.
    eexists _, _, _, _. split; exact H1.
Qed.

(** ** Further properties: the buckets, the corpus and the console *)

(** What the [if]/[elif] chain has tested when it picks a bucket. *)
Lemma bucket_of_inv u s d :
  match bucket_of (u, s, d) with
  | valid => s = 200 ∧ d = "OK"
  | redirected => s = 200 ∧ d ≠ "OK"
  | broken => 400 ≤ s
  | template => s = -1 ∧ d = "TEMPLATE_URL"
  | example => s = -1 ∧ d ≠ "TEMPLATE_URL"
  | error => s ≠ -1 ∧ s ≠ 200 ∧ s < 400
  end%Z.
Proof.
  unfold bucket_of.
  destruct (Z.eqb_spec s (-1)) as [->|H1].
  { by destruct (String.eqb_spec d "TEMPLATE_URL"). }
  destruct (Z.eqb_spec s 200) as [->|H2].
  { by destruct (String.eqb_spec d "OK"). }
  destruct (Z.geb_spec s 400); [lia|]. repeat split; [done|done|lia].
Qed.

(** A finished run, with the entries the loop computed. *)
Lemma main_buckets (urlopen : world → string → Z → attempt) corpus :
  ∃ out log ts,
    main urlopen corpus = (Ret out, log) ∧
    log = requests_of (sorted (elements (collect corpus))) ∧
    total_urls (report_summary (written out)) = length ts ∧
    printed out = console (report_results (written out)) ∧
    (∀ b, get b (report_results (written out)) = entries_in b ts) ∧
    (∀ b, count b (report_summary (written out)) = length (entries_in b ts)) ∧
    Forall2 (λ url t, ∃ w0, (check_url urlopen url 10 w0).1 = Ret t)
            (sorted (elements (collect corpus))) ts.
Proof.
  unfold main.
  destruct (main_from_spec urlopen (elements (collect corpus))) as (ts & Hm & Hall).
  eexists _, _, ts. split; [exact Hm|]. split; [done|].
  assert (∀ b, get b (foldl file_entry empty_results ts) = entries_in b ts) as Hget.
  { intros b. rewrite get_foldl_file_entry. by destruct b. }
  split; [|split; [done|split; [done|split; [|done]]]].
  - cbn. by rewrite <-(Forall2_length _ _ _ Hall), sorted_Permutation.
  - intros b. rewrite <-Hget. by destruct b.
Qed.

(** X8.  The buckets of a report hold what their names say, whatever the
    corpus and the network: [valid] has status 200 and the mark OK,
    [redirected] status 200 and a target, [broken] a status of 400 or
    more, [template] and [example] status -1 with, respectively without,
    the template mark, [error] any other status below 400. *)
Theorem report_buckets_hold_what_they_name
    (urlopen : world → string → Z → attempt) (corpus : list file) :
  ∃ out log,
    main urlopen corpus = (Ret out, log) ∧
    ∀ u s d,
      ((u, s, d) ∈ r_valid (report_results (written out)) → s = 200 ∧ d = "OK")%Z ∧
      ((u, s, d) ∈ r_redirected (report_results (written out)) → s = 200 ∧ d ≠ "OK")%Z ∧
      ((u, s, d) ∈ r_broken (report_results (written out)) → 400 ≤ s)%Z ∧
      ((u, s, d) ∈ r_template (report_results (written out)) →
         s = -1 ∧ d = "TEMPLATE_URL")%Z ∧
      ((u, s, d) ∈ r_example (report_results (written out)) →
         s = -1 ∧ d ≠ "TEMPLATE_URL")%Z ∧
      ((u, s, d) ∈ r_error (report_results (written out)) →
         s ≠ -1 ∧ s ≠ 200 ∧ s < 400)%Z.
Proof.
  destruct (main_buckets urlopen corpus) as (out & log & ts & Hm & _ & _ & _ & Hget & _).
  exists out, log. split; [done|]. intros u s d.
  pose proof (bucket_of_inv u s d) as Hinv.
  pose proof (Hget valid) as Hv. pose proof (Hget redirected) as Hr.
  pose proof (Hget broken) as Hk. pose proof (Hget template) as Ht.
  pose proof (Hget example) as Hx. pose proof (Hget error) as He.
  cbn [get] in Hv, Hr, Hk, Ht, Hx, He. rewrite Hv, Hr, Hk, Ht, Hx, He.
  unfold entries_in.
  split; [|split; [|split; [|split; [|split]]]];
    intros [Hb _]%list_elem_of_filter; rewrite Hb in Hinv; tauto.
Qed.

(** X9.  An [HTTPError] is filed by its code alone: server errors go with
    the client errors under [broken], while a code below 400 (a redirect
    that could not be followed, say) goes under [error]. *)
Theorem http_error_bucket_by_code
    (urlopen : world → string → Z → attempt)
    (url : string) (timeout : Z) (w : world) (e : exn) :
  classify url = Probeable →
  urlopen w (normalize url) timeout = Raised e →
  isinstance e HTTPError = true →
  check_url urlopen url timeout w =
    (Ret (normalize url, exn_code e, exn_reason e), w ++ [normalize url]) ∧
  ((400 ≤ exn_code e)%Z →
     bucket_of (normalize url, exn_code e, exn_reason e) = broken) ∧
  ((exn_code e < 400)%Z → exn_code e ≠ (-1)%Z → exn_code e ≠ 200%Z →
     bucket_of (normalize url, exn_code e, exn_reason e) = error).
Proof.
  intros Hp Hnet He.
  split; [by rewrite check_url_probeable, Hnet, He|].
  pose proof (bucket_of_inv (normalize url) (exn_code e) (exn_reason e)) as Hinv.
  destruct (bucket_of (normalize url, exn_code e, exn_reason e));
    split; intros; try done; lia.
Qed.

(** A server that is down for maintenance. *)
Lemma http_error_bucket_by_code_witness :
  let unavailable := mk_exn HTTPError 503 "Service Unavailable"
                            "HTTP Error 503: Service Unavailable" in
  bucket_of (normalize "https://api.site.io/v2", exn_code unavailable,
             exn_reason unavailable) = broken.
Proof.
  intros unavailable.
  destruct (http_error_bucket_by_code (λ _ _ _, Raised unavailable)
              "https://api.site.io/v2" 10 [] unavailable) as (_ & Hb & _).
  - vm_compute. reflexivity.
  - reflexivity.
  - vm_compute. reflexivity.
  - apply Hb. simpl. lia.
Defined.

(** X10.  Only the texts of the readable files count: files that cannot be
    read, the order of the files and a text that comes twice do not change
    the set of URLs, and so neither the list the loop goes through nor
    what the loop requests and files. *)
Theorem run_depends_on_readable_texts_only
    (urlopen : world → string → Z → attempt) (corpus1 corpus2 : list file) :
  (∀ content, Some content ∈ corpus1 ↔ Some content ∈ corpus2) →
  collect corpus1 = collect corpus2 ∧
  sorted (elements (collect corpus1)) = sorted (elements (collect corpus2)) ∧
  verify urlopen (sorted (elements (collect corpus1))) empty_results [] =
  verify urlopen (sorted (elements (collect corpus2))) empty_results [].
Proof.
  intros Hsame.
  assert (collect corpus1 = collect corpus2) as Heq.
  { apply set_eq. intros u. rewrite !elem_of_collect.
    split; intros (content & Hin & Hu); exists content; (split; [by apply Hsame|done]). }
  by rewrite Heq.
Qed.

Lemma run_depends_on_readable_texts_only_witness :
  collect [Some "https://a.io/x"; None; Some "see http://b.io/y"] =
  collect [Some "see http://b.io/y"; Some "https://a.io/x"; Some "see http://b.io/y"].
Proof.
  apply (run_depends_on_readable_texts_only (λ _ url _, Responded 200 url)).
  intros content. rewrite !elem_of_cons, !elem_of_nil. intuition discriminate.
Defined.

(** X11.  The closing part of the console text.  A section header is
    printed exactly for the buckets [broken], [redirected] and [error]
    that are not empty; the redirected and the error lines shown are the
    first ten entries of their bucket and no others, and an error line
    does not show the status. *)
Theorem console_sections (r : results) :
  (∀ b, SectionHeader b ∈ console r ↔
        (b = broken ∨ b = redirected ∨ b = error) ∧ get b r ≠ []) ∧
  (∀ s u n, RedirectedItem s u n ∈ console r ↔
            ∃ i, i < 10 ∧ r_redirected r !! i = Some (u, s, n)) ∧
  (∀ u m, ErrorItem u m ∈ console r ↔
          ∃ i s, i < 10 ∧ r_error r !! i = Some (u, s, m)).
Proof.
  unfold console. split; [|split].
  - intros b. rewrite !elem_of_app, !elem_of_section. split.
    + intros [Hin|[Hin|[Hin|[Hin|Hin]]]].
      * by apply list_elem_of_fmap in Hin as (? & [=] & _).
      * by apply list_elem_of_singleton in Hin.
      * destruct Hin as [[? [= ->]]|([[? ?] ?] & [=] & _)]. auto.
      * destruct Hin as [[? [= ->]]|([[? ?] ?] & [=] & _)]. auto.
      * destruct Hin as [[? [= ->]]|([[? ?] ?] & [=] & _)]. auto.
    + intros [[-> |[-> | ->]] Hne].
      * right; right; left; by left.
      * right; right; right; left; by left.
      * right; right; right; right; by left.
  - intros s u n. rewrite !elem_of_app, !elem_of_section. split.
    + intros [Hin|[Hin|[Hin|[Hin|Hin]]]].
      * by apply list_elem_of_fmap in Hin as (? & [=] & _).
      * by apply list_elem_of_singleton in Hin.
      * by destruct Hin as [[_ [=]]|([[? ?] ?] & [=] & _)].
      * destruct Hin as [[_ [=]]|([[u' s'] n'] & [= -> -> ->] & Hin)].
        apply elem_of_take in Hin as (i & Hi & Hlt). eauto.
      * by destruct Hin as [[_ [=]]|([[? ?] ?] & [=] & _)].
    + intros (i & Hlt & Hi). right; right; right; left; right.
      exists (u, s, n). split; [done|]. apply elem_of_take. eauto.
  - intros u m. rewrite !elem_of_app, !elem_of_section. split.
    + intros [Hin|[Hin|[Hin|[Hin|Hin]]]].
      * by apply list_elem_of_fmap in Hin as (? & [=] & _).
      * by apply list_elem_of_singleton in Hin.
      * by destruct Hin as [[_ [=]]|([[? ?] ?] & [=] & _)].
      * by destruct Hin as [[_ [=]]|([[? ?] ?] & [=] & _)].
      * destruct Hin as [[_ [=]]|([[u' s'] m'] & [= -> ->] & Hin)].
        apply elem_of_take in Hin as (i & Hi & Hlt). eauto.
    + intros (i & s & Hlt & Hi). right; right; right; right; right.
      exists (u, s, m). split; [done|]. apply elem_of_take. eauto.
Qed.

(** The entries that one closing section shows. *)
Lemma section_item_count (P : line → bool) b render r (k : bool) :
  P (SectionHeader b) = false →
  (∀ t, P (render t) = k) →
  length (filter (λ l, P l = true) (section b render r)) =
    if k then 10 `min` length (get b r) else 0.
Proof.
  intros Hh Hr. unfold section.
  destruct (get b r) as [|t0 items] eqn:Hb; [by destruct k|].
  rewrite filter_cons_False by (by rewrite Hh).
  change (map render ?l) with (render <$> l).
  rewrite <-length_take. generalize (take 10 (t0 :: items)). intros l.
  induction l as [|t l IH]; [by destruct k|].
  rewrite fmap_cons, filter_cons, (Hr t).
  destruct k; [|by case_decide]. case_decide; [|done].
  cbn [length]. by rewrite IH.
Qed.

(** X12.  How many entries the console shows after the loop: for each of
    [broken], [redirected] and [error] the first ten of the bucket or, if
    it has fewer, all of them; none for the other three buckets.  So the
    closing part never shows more than thirty entries, however many URLs
    the corpus holds. *)
Theorem console_item_counts (r : results) (b : bucket) :
  length (filter (λ l, item_of b l = true) (console r)) =
    match b with
    | broken | redirected | error => 10 `min` length (get b r)
    | valid | template | example => 0
    end ∧
  length (filter (λ l, item_of b l = true) (console r)) ≤ 10.
Proof.
  assert (length (filter (λ l, item_of b l = true) (console r)) =
          match b with
          | broken | redirected | error => 10 `min` length (get b r)
          | valid | template | example => 0
          end) as Hcount.
  { unfold console. rewrite !filter_app, !length_app.
    assert (∀ bs, filter (λ l, item_of b l = true)
                    (map (λ b0, SummaryCount b0 (length (get b0 r))) bs) = []) as ->.
    { induction bs as [|b0 bs IH]; [done|]. cbn [map].
      rewrite filter_cons_False; [done|by destruct b]. }
    rewrite (filter_cons_False _ Saved) by (by destruct b).
    rewrite (section_item_count (item_of b) broken _ r (bool_decide (b = broken)));
      [|by destruct b|by intros [[? ?] ?]; destruct b].
    rewrite (section_item_count (item_of b) redirected _ r (bool_decide (b = redirected)));
      [|by destruct b|by intros [[? ?] ?]; destruct b].
    rewrite (section_item_count (item_of b) error _ r (bool_decide (b = error)));
      [|by destruct b|by intros [[? ?] ?]; destruct b].
    rewrite filter_nil.
    destruct b;
      repeat first [ rewrite bool_decide_eq_true_2 by done
                   | rewrite bool_decide_eq_false_2 by done ];
      cbn [length get]; lia. }
  split; [done|]. rewrite Hcount. destruct b; lia.
Qed.

(** The status of an entry tells whether a request was made, as long as
    the network never answers with -1. *)
Lemma probeable_iff_status (urlopen : world → string → Z → attempt) url t w0 :
  (∀ w u timeout,
     match urlopen w u timeout with
     | Responded s _ => s ≠ (-1)%Z
     | Raised e => isinstance e HTTPError = true → exn_code e ≠ (-1)%Z
     end) →
  (check_url urlopen url 10 w0).1 = Ret t →
  classify url = Probeable ↔ t.1.2 ≠ (-1)%Z.
Proof.
  intros Hnet Ht. destruct (decide (classify url = Probeable)) as [Hp|Hex].
  - rewrite check_url_probeable in Ht by done. cbn [fst] in Ht.
    specialize (Hnet w0 (normalize url) 10%Z).
    destruct (urlopen w0 (normalize url) 10%Z) as [s f|e].
    + injection Ht as <-. done.
    + destruct (isinstance e HTTPError).
      { injection Ht as <-. cbn. split; [intros _; by apply Hnet|done]. }
      destruct (isinstance e URLError); injection Ht as <-; done.
  - rewrite check_url_exempt in Ht by done. injection Ht as <-. cbn. tauto.
Qed.

Lemma status_iff_bucket (t : entry) :
  (t.1.2 = (-1)%Z ↔ bucket_of t = template ∨ bucket_of t = example).
Proof.
  destruct t as [[u s] d]. pose proof (bucket_of_inv u s d) as Hinv.
  cbn [fst snd].
  destruct (bucket_of (u, s, d)); split; intros H;
    try (destruct H as [H|H]; try discriminate H); try lia; auto.
Qed.

(** X13.  Requests and counts agree.  When the network never answers with
    the status -1 that [check_url] uses as its own mark, the number of
    requests of a run is the sum of the four counts [valid], [redirected],
    [broken] and [error], and [template] and [example] make up the rest
    of [total_urls]. *)
Theorem requests_match_counts
    (urlopen : world → string → Z → attempt) (corpus : list file) :
  (∀ w u timeout,
     match urlopen w u timeout with
     | Responded s _ => s ≠ (-1)%Z
     | Raised e => isinstance e HTTPError = true → exn_code e ≠ (-1)%Z
     end) →
  ∃ out log,
    main urlopen corpus = (Ret out, log) ∧
    length log =
      s_valid (report_summary (written out)) +
      s_redirected (report_summary (written out)) +
      s_broken (report_summary (written out)) +
      s_error (report_summary (written out)) ∧
    total_urls (report_summary (written out)) =
      length log + s_template (report_summary (written out)) +
      s_example (report_summary (written out)).
Proof.
  intros Hnet.
  destruct (main_buckets urlopen corpus)
    as (out & log & ts & Hm & -> & Htot & _ & _ & Hcount & Hall).
  eexists out, _. split; [exact Hm|].
  pose proof (Hcount valid) as Hv. pose proof (Hcount redirected) as Hr.
  pose proof (Hcount broken) as Hk. pose proof (Hcount template) as Ht.
  pose proof (Hcount example) as Hx. pose proof (Hcount error) as He.
  cbn [count] in Hv, Hr, Hk, Ht, Hx, He. rewrite Htot, Hv, Hr, Hk, Ht, Hx, He.
  pose proof (entries_in_total ts) as Hsum. cbn in Hsum.
  assert (length (requests_of (sorted (elements (collect corpus)))) =
          length (filter (λ t : entry, t.1.2 ≠ (-1)%Z) ts)) as Hreq.
  { unfold requests_of. rewrite length_fmap.
    clear -Hnet Hall. revert Hall.
    generalize (sorted (elements (collect corpus))). intros urls0 Hall.
    induction Hall as [|url t urls ts' [w0 Hc] Hall IH]; [done|].
    rewrite !filter_cons.
    pose proof (probeable_iff_status urlopen url t w0 Hnet Hc) as Hiff.
    destruct (decide (classify url = Probeable)), (decide (t.1.2 ≠ (-1)%Z));
      cbn [length]; rewrite ?IH; tauto || done. }
  assert (length (filter (λ t : entry, t.1.2 ≠ (-1)%Z) ts) =
          length (entries_in valid ts) + length (entries_in redirected ts) +
          length (entries_in broken ts) + length (entries_in error ts)) as Hsplit.
  { clear. induction ts as [|t ts IH]; [done|].
    unfold entries_in in *. rewrite !filter_cons.
    pose proof (status_iff_bucket t) as Hiff.
    destruct (bucket_of t) eqn:Hb; destruct (decide (t.1.2 ≠ (-1)%Z)) as [Hs|Hs];
      repeat case_decide; try discriminate; cbn [length]; try lia; exfalso;
      first [ by (apply Hs, Hiff; auto)
            | (assert (t.1.2 = (-1)%Z) as Heq by lia;
               destruct Hiff as [Hi _]; destruct (Hi Heq); discriminate) ]. }
  rewrite Hreq, Hsplit. lia.
Qed.

Lemma requests_match_counts_witness :
  let urlopen := λ (_ : world) (url : string) (_ : Z), Responded 200 url in
  ∃ out log,
    main urlopen [Some "https://a.io/x and https://example.com/y"] = (Ret out, log) ∧
    length log =
      s_valid (report_summary (written out)) +
      s_redirected (report_summary (written out)) +
      s_broken (report_summary (written out)) +
      s_error (report_summary (written out)).
Proof.
  intros urlopen.
  destruct (requests_match_counts urlopen
              [Some "https://a.io/x and https://example.com/y"])
    as (out & log & Hm & Hlen & _).
  - intros w u timeout. simpl. discriminate.
  - exists out, log. split; [exact Hm|exact Hlen].
Defined.

(** ** Properties of fix-withauth-types.py *)

Module WithAuthFacts.
Import WithAuth.

Local Abbreviation no_cr := (Str.all_chars (λ c, negb (bool_decide (c = CR)))).

Lemma all_chars_impl (P Q : ascii → bool) s :
  (∀ c, P c = true → Q c = true) →
  Str.all_chars P s = true → Str.all_chars Q s = true.
Proof.
  intros HPQ. induction s as [|c s IH]; [done|]. cbn [Str.all_chars].
  intros [Hc Hs]%andb_true_iff. by rewrite (HPQ c Hc), (IH Hs).
Qed.

(** Reading leaves no carriage return, and changes nothing in a text
    that has none. *)
Lemma universal_newlines_no_cr s : no_cr (universal_newlines s) = true.
Proof.
  assert (∀ n s, String.length s ≤ n → no_cr (universal_newlines s) = true) as H.
  { clear s. induction n as [|n IH]; intros [|c s] Hlen; try done.
    { cbn in Hlen. lia. }
    cbn in Hlen. cbn [universal_newlines]. case_bool_decide as Hc.
    - cbn [Str.all_chars]. destruct s as [|c' s]; [done|].
      cbn in Hlen. replace (negb (bool_decide (LF = CR))) with true by done.
      case_bool_decide; apply IH; cbn; lia.
    - cbn [Str.all_chars]. rewrite bool_decide_eq_false_2 by done.
      apply IH. lia. }
  by apply (H (String.length s)).
Qed.

Lemma universal_newlines_id s : no_cr s = true → universal_newlines s = s.
Proof.
  induction s as [|c s IH]; [done|]. cbn [Str.all_chars universal_newlines].
  intros [Hc Hs]%andb_true_iff. apply negb_true_iff in Hc. rewrite Hc.
  by rewrite (IH Hs).
Qed.

Lemma sub_from_no_cr pat repl k s :
  no_cr repl = true → no_cr s = true → no_cr (sub_from pat repl k s) = true.
Proof.
  intros Hr. revert k. induction s as [|c s IH]; intros k; [done|].
  cbn [Str.all_chars sub_from]. intros [Hc Hs]%andb_true_iff.
  destruct k as [|k]; [|by apply IH].
  destruct (String.prefix pat (String c s)).
  - rewrite all_chars_app, Hr. by apply IH.
  - cbn [Str.all_chars]. rewrite Hc. by apply IH.
Qed.

(** A substitution either leaves the text as it is or puts the
    replacement into it. *)
Lemma re_sub_changed pat repl s :
  re_sub pat repl s = s ∨ Str.contains repl (re_sub pat repl s) = true.
Proof.
  unfold re_sub. induction s as [|c s IH]; [by left|]. cbn [sub_from].
  destruct (String.prefix pat (String c s)).
  - right. apply contains_spec. by exists "", (sub_from pat repl (String.length pat - 1) s).
  - destruct IH as [-> |IH]; [by left|right].
    apply contains_spec in IH as (pre & post & ->).
    apply contains_spec. by exists (String c pre), post.
Qed.

(** Without an occurrence of the pattern there is nothing to replace. *)
Lemma re_sub_id pat repl s :
  Str.contains pat s = false → re_sub pat repl s = s.
Proof.
  unfold re_sub. induction s as [|c s IH]; [done|]. cbn [Str.contains sub_from].
  intros [Hp Hc]%orb_false_iff. by rewrite Hp, (IH Hc).
Qed.

Lemma contains_trans a b c :
  Str.contains a b = true → Str.contains b c = true → Str.contains a c = true.
Proof.
  intros (p1 & q1 & ->)%contains_spec (p2 & q2 & ->)%contains_spec.
  apply contains_spec. exists (p2 +:+ p1), (q1 +:+ q2).
  by rewrite !append_assoc.
Qed.

Lemma join_no_cr sep l :
  no_cr sep = true → Forall (λ x, no_cr x = true) l → no_cr (join sep l) = true.
Proof.
  intros Hsep. induction 1 as [|x l Hx Hl IH]; [done|].
  cbn [join]. destruct l as [|y l]; [done|].
  by rewrite !all_chars_app, Hx, Hsep, IH.
Qed.

Lemma type_str_no_cr params :
  Forall (λ p, plain p = true) params → no_cr (type_str params) = true.
Proof.
  intros Hp. unfold type_str. rewrite !all_chars_app.
  rewrite join_no_cr; [done|done|].
  apply Forall_fmap. eapply Forall_impl; [exact Hp|]. intros p Hpl. cbn.
  rewrite all_chars_app, andb_true_r.
  eapply all_chars_impl; [|exact Hpl]. by intros c [_ ?]%andb_true_iff.
Qed.

(** The typed call that the substitution writes holds the mark that the
    script looks for. *)
Lemma marker_in_replacement t :
  Str.contains ("withAuth<" +:+ t +:+ ">") ("withAuth<" +:+ t +:+ ">(async") = true.
Proof.
  apply contains_spec. exists "", "(async".
  change ("" +:+ ?x) with x. by rewrite !append_assoc.
Qed.

(** [fix_file] looks at, and writes, its own file only. *)
Lemma fix_file_frame path params fs q :
  q ≠ path → (fix_file path params fs).2 !! q = fs !! q.
Proof.
  intros Hq. unfold fix_file.
  destruct (fs !! path) as [[stored [|]|]|]; try done;
    destruct (Str.contains _ _); try done; case_bool_decide; try done.
  cbn. by rewrite lookup_insert_ne.
Qed.

Lemma fix_file_local path params fs1 fs2 :
  fs1 !! path = fs2 !! path →
  (fix_file path params fs1).1 = (fix_file path params fs2).1 ∧
  (fix_file path params fs1).2 !! path = (fix_file path params fs2).2 !! path.
Proof.
  intros Heq. unfold fix_file. rewrite <-Heq.
  destruct (fs1 !! path) as [[stored writable|]|] eqn:H1;
    [|cbn; split; congruence..].
  destruct (Str.contains _ _); [cbn; split; congruence|].
  case_bool_decide; [|cbn; split; congruence].
  destruct writable; [|cbn; split; congruence].
  cbn. by rewrite !lookup_insert_eq.
Qed.

(** After one call the file is settled: a second call finds it already
    fixed, or as little to do as the first. *)
Lemma fix_file_settles path params fs :
  Forall (λ p, plain p = true) params →
  ∃ v2,
    fix_file path params (fix_file path params fs).2 = (v2, (fix_file path params fs).2) ∧
    returned v2 = false ∧
    ((fix_file path params fs).1 = Fixed → v2 = AlreadyFixed).
Proof.
  intros Hp.
  assert (∀ v, fix_file path params fs = (v, fs) → returned v = false →
               ∃ v2, fix_file path params (fix_file path params fs).2 =
                       (v2, (fix_file path params fs).2) ∧
                     returned v2 = false ∧
                     ((fix_file path params fs).1 = Fixed → v2 = AlreadyFixed)) as Hsame.
  { intros v Hv Hr. exists v. rewrite !Hv. cbn. split; [done|]. split; [done|].
    intros ->. done. }
  unfold fix_file in *.
  destruct (fs !! path) as [[stored writable|]|] eqn:Hl;
    [|by apply (Hsame Error)|by apply (Hsame Error)].
  destruct (Str.contains _ (universal_newlines stored)) eqn:Hm;
    [by apply (Hsame AlreadyFixed)|].
  case_bool_decide as Hch; [|by apply (Hsame NoChangesNeeded)].
  destruct writable; [|by apply (Hsame Error)].
  clear Hsame. exists AlreadyFixed. cbn [fst snd]. rewrite lookup_insert_eq.
  set (repl := "withAuth<" +:+ type_str params +:+ ">(async") in *.
  set (content' := re_sub "withAuth(async" repl (universal_newlines stored)) in *.
  assert (no_cr content' = true) as Hcr.
  { apply sub_from_no_cr; [|apply universal_newlines_no_cr].
    unfold repl. rewrite !all_chars_app, type_str_no_cr; done. }
  rewrite (universal_newlines_id _ Hcr).
  assert (Str.contains ("withAuth<" +:+ type_str params +:+ ">") content' = true) as ->.
  { destruct (re_sub_changed "withAuth(async" repl (universal_newlines stored))
      as [Heq|Hc]; [done|].
    eapply contains_trans; [apply marker_in_replacement|exact Hc]. }
  done.
Qed.

Lemma fix_file_dom path params fs :
  dom (fix_file path params fs).2 = dom fs.
Proof.
  unfold fix_file. destruct (fs !! path) as [[stored writable|]|] eqn:Hl; try done.
  destruct (Str.contains _ _); [done|]. case_bool_decide; [|done].
  destruct writable; [|done]. cbn. rewrite dom_insert_L.
  apply subseteq_union_1_L, singleton_subseteq_l, elem_of_dom. by rewrite Hl.
Qed.

Lemma fix_file_unchanged path params fs :
  (fix_file path params fs).1 ≠ Fixed → (fix_file path params fs).2 = fs.
Proof.
  unfold fix_file. destruct (fs !! path) as [[stored writable|]|]; try done.
  destruct (Str.contains _ _); [done|]. case_bool_decide; [|done].
  by destruct writable.
Qed.

Lemma visit_frame rel_path params fs q :
  q ≠ path_join base_dir rel_path → (visit rel_path params fs).2 !! q = fs !! q.
Proof.
  intros Hq. unfold visit. destruct (fs !! path_join base_dir rel_path); [|done].
  pose proof (fix_file_frame (path_join base_dir rel_path) params fs q Hq) as Hf.
  by destruct (fix_file _ _ _).
Qed.

Lemma visit_dom rel_path params fs : dom (visit rel_path params fs).2 = dom fs.
Proof.
  unfold visit. destruct (fs !! path_join base_dir rel_path); [|done].
  pose proof (fix_file_dom (path_join base_dir rel_path) params fs) as Hf.
  by destruct (fix_file _ _ _).
Qed.

(** A row whose file is settled stays settled when other files change. *)
Lemma visit_settled_local rel_path params fs1 fs2 :
  fs1 !! path_join base_dir rel_path = fs2 !! path_join base_dir rel_path →
  visit rel_path params fs1 = (false, fs1) →
  visit rel_path params fs2 = (false, fs2).
Proof.
  intros Heq. destruct (fix_file_local _ params _ _ Heq) as [Hv _].
  unfold visit. rewrite <-Heq.
  destruct (fs1 !! path_join base_dir rel_path) as [nd|]; [|done].
  pose proof (fix_file_unchanged (path_join base_dir rel_path) params fs2) as Hu.
  destruct (fix_file _ _ fs1) as [v1 fs1'], (fix_file _ _ fs2) as [v2 fs2'].
  cbn in *. subst v2. intros [= Hr _]. rewrite Hr. f_equal. apply Hu.
  by destruct v1.
Qed.

Lemma visit_settles rel_path params fs :
  Forall (λ p, plain p = true) params →
  visit rel_path params (visit rel_path params fs).2 =
    (false, (visit rel_path params fs).2).
Proof.
  intros Hp. unfold visit at 2 3.
  destruct (fs !! path_join base_dir rel_path) as [nd|] eqn:Hl.
  - destruct (fix_file_settles (path_join base_dir rel_path) params fs Hp)
      as (v2 & Hv2 & Hr & _).
    pose proof (fix_file_dom (path_join base_dir rel_path) params fs) as Hd.
    destruct (fix_file _ _ fs) as [v fs'] eqn:Hf. cbn [fst snd] in *.
    unfold visit.
    assert (is_Some (fs' !! path_join base_dir rel_path)) as [nd' ->].
    { apply elem_of_dom. rewrite Hd. apply elem_of_dom. by rewrite Hl. }
    by rewrite Hv2, Hr.
  - cbn. unfold visit. by rewrite Hl.
Qed.

Lemma main_over_frame table n fs q :
  (∀ row, row ∈ table → q ≠ path_join base_dir row.1) →
  (main_over table n fs).2 !! q = fs !! q.
Proof.
  revert n fs. induction table as [|[rel_path params] table IH]; intros n fs Hq; [done|].
  cbn [main_over].
  pose proof (visit_frame rel_path params fs q (Hq (rel_path, params) ltac:(by left))) as Hv.
  destruct (visit rel_path params fs) as [fixed fs'].
  rewrite IH; [done|]. intros row Hrow. apply Hq. by right.
Qed.

Lemma main_over_dom table n fs : dom (main_over table n fs).2 = dom fs.
Proof.
  revert n fs. induction table as [|[rel_path params] table IH]; intros n fs; [done|].
  cbn [main_over]. pose proof (visit_dom rel_path params fs) as Hv.
  destruct (visit rel_path params fs) as [fixed fs']. by rewrite IH.
Qed.

Lemma main_over_count table n fs :
  n ≤ (main_over table n fs).1 ≤ n + length table.
Proof.
  revert n fs. induction table as [|[rel_path params] table IH]; intros n fs.
  { cbn. lia. }
  cbn [main_over length]. destruct (visit rel_path params fs) as [[|] fs'].
  - specialize (IH (n + 1) fs'). lia.
  - specialize (IH n fs'). lia.
Qed.

(** Over a table whose rows are all settled the loop counts nothing and
    writes nothing. *)
Lemma main_over_settled table n fs :
  (∀ row, row ∈ table → visit row.1 row.2 fs = (false, fs)) →
  main_over table n fs = (n, fs).
Proof.
  revert n. induction table as [|[rel_path params] table IH]; intros n Hs; [done|].
  cbn [main_over].
  pose proof (Hs (rel_path, params) ltac:(by left)) as Hhead.
  cbn [fst snd] in Hhead. rewrite Hhead.
  apply IH. intros row Hrow. apply Hs. by right.
Qed.

(** One pass over a table with distinct paths settles every row. *)
Lemma main_over_settles table n fs :
  NoDup table.*1 →
  Forall (λ row, Forall (λ p, plain p = true) row.2) table →
  ∀ row, row ∈ table →
    visit row.1 row.2 (main_over table n fs).2 = (false, (main_over table n fs).2).
Proof.
  revert n fs. induction table as [|[rel_path params] table IH];
    intros n fs Hnd Hpl row Hrow; [by apply elem_of_nil in Hrow|].
  apply NoDup_cons in Hnd as [Hnotin Hnd]. apply Forall_cons in Hpl as [Hp Hpl].
  cbn [main_over].
  pose proof (visit_settles rel_path params fs Hp) as Hset.
  destruct (visit rel_path params fs) as [fixed fs'] eqn:Hv. cbn [snd] in Hset.
  apply elem_of_cons in Hrow as [-> |Hrow]; [|by apply IH].
  cbn [fst snd]. eapply visit_settled_local; [|exact Hset].
  symmetry. apply main_over_frame. intros row Hrow Heq.
  apply Hnotin. apply list_elem_of_fmap. exists row. split; [|done].
  unfold path_join in Heq. by repeat apply (inj (String.app _)) in Heq.
Qed.

Lemma FILE_PARAMS_distinct : NoDup FILE_PARAMS.*1.
Proof. apply (bool_decide_unpack _). vm_compute. exact I. Qed.

Lemma FILE_PARAMS_plain :
  Forall (λ row, Forall (λ p, plain p = true) row.2) FILE_PARAMS.
Proof. unfold FILE_PARAMS. repeat constructor. Qed.

(** X14.  Running [fix_file] twice on a file is the same as running it
    once: the second call returns False and writes nothing.  After a call
    that fixed the file the second one finds it already fixed; after any
    other call it ends as the first did. *)
Theorem fix_file_twice (path : string) (params : list string) (fs : filesystem) :
  Forall (λ p, plain p = true) params →
  let first := fix_file path params fs in
  let second := fix_file path params first.2 in
  returned second.1 = false ∧
  second.2 = first.2 ∧
  (first.1 = Fixed → second.1 = AlreadyFixed) ∧
  (first.1 ≠ Fixed → second.1 = first.1).
Proof.
  intros Hp first second.
  destruct (fix_file_settles path params fs Hp) as (v2 & Hv2 & Hr & Hfixed).
  fold first in Hv2, Hfixed. fold second in Hv2.
  rewrite Hv2. cbn [fst snd]. split; [done|]. split; [done|]. split; [done|].
  intros Hnf. pose proof (fix_file_unchanged path params fs Hnf) as Hu.
  fold first in Hu. unfold second in Hv2. rewrite Hu in Hv2.
  fold first in Hv2. by rewrite Hv2.
Qed.

(** A route with one untyped handler. *)
Lemma fix_file_twice_witness :
  let fs : filesystem :=
    {[ "route.ts" := Text "export const GET = withAuth(async (req) => ok);" true ]} in
  (fix_file "route.ts" ["jobId"] (fix_file "route.ts" ["jobId"] fs).2).2 =
  (fix_file "route.ts" ["jobId"] fs).2.
Proof.
  intros fs.
  destruct (fix_file_twice "route.ts" ["jobId"] fs) as (_ & Hsame & _).
  - repeat constructor.
  - exact Hsame.
Defined.

(** X15.  What [fix_file] does to the file system.  It never touches
    another path and never creates or removes a file; unless it reports
    the file as fixed it writes nothing at all.  It reports the file as
    fixed only for a writable text that held an untyped call and no typed
    one, and then the file holds the text with every untyped call typed.
    A text with a typed call is left alone whatever else it holds, and a
    text without an untyped call is never an error.  The parameter names
    are plain, as the model of the substitution asks. *)
Theorem fix_file_effect (path : string) (params : list string) (fs : filesystem) :
  Forall (λ p, plain p = true) params →
  let typed := "withAuth<" +:+ type_str params +:+ ">" in
  let v := (fix_file path params fs).1 in
  let fs' := (fix_file path params fs).2 in
  (∀ q, q ≠ path → fs' !! q = fs !! q) ∧
  dom fs' = dom fs ∧
  (v ≠ Fixed → fs' = fs) ∧
  (v = Fixed →
     ∃ stored,
       fs !! path = Some (Text stored true) ∧
       Str.contains "withAuth(async" (universal_newlines stored) = true ∧
       Str.contains typed (universal_newlines stored) = false ∧
       fs' !! path =
         Some (Text (re_sub "withAuth(async" (typed +:+ "(async")
                       (universal_newlines stored)) true)) ∧
  (∀ stored w, fs !! path = Some (Text stored w) →
     Str.contains typed (universal_newlines stored) = true →
     v = AlreadyFixed) ∧
  (∀ stored w, fs !! path = Some (Text stored w) →
     Str.contains "withAuth(async" (universal_newlines stored) = false →
     v = AlreadyFixed ∨ v = NoChangesNeeded).
Proof.
  intros _ typed v fs'.
  split; [intros q Hq; by apply fix_file_frame|].
  split; [apply fix_file_dom|].
  split; [apply fix_file_unchanged|].
  assert (typed +:+ "(async" = "withAuth<" +:+ type_str params +:+ ">(async") as Hrepl.
  { unfold typed. by rewrite !append_assoc. }
  unfold v, fs', fix_file. fold typed. rewrite <-Hrepl.
  destruct (fs !! path) as [[stored writable|]|] eqn:Hl.
  - destruct (Str.contains typed (universal_newlines stored)) eqn:Hm.
    { split; [done|]. split; [done|]. intros ? ? [= <- <-]. by left. }
    case_bool_decide as Hch.
    + assert (Str.contains "withAuth(async" (universal_newlines stored) = true) as Hc.
      { destruct (Str.contains "withAuth(async" (universal_newlines stored)) eqn:Hc;
          [done|]. by rewrite re_sub_id in Hch. }
      destruct writable.
      * split; [|split].
        -- intros _. exists stored. cbn. by rewrite lookup_insert_eq.
        -- intros ? ? [= <- <-]. congruence.
        -- intros ? ? [= <- <-]. congruence.
      * split; [done|]. split; intros ? ? [= <- <-]; congruence.
    + split; [done|]. split; [intros ? ? [= <- <-]; congruence|].
      intros ? ? _ _. by right.
  - split; [done|]. split; intros ? ? [=].
  - split; [done|]. split; intros ? ? [=].
Qed.

(** A file that is typed already next to one that is not there. *)
Lemma fix_file_effect_witness :
  let fs : filesystem :=
    {[ "a/route.ts" := Text "export const GET = withAuth<{ id: string }>(async () => ok);" true ]} in
  dom (fix_file "b/route.ts" ["id"] fs).2 = dom fs.
Proof.
  intros fs.
  destruct (fix_file_effect "b/route.ts" ["id"] fs) as (_ & Hdom & _).
  - repeat constructor.
  - exact Hdom.
Defined.

(** X16.  A second run of the script does nothing: whatever the first run
    found and did, the run that follows fixes no file and leaves every
    file as it is. *)
Theorem main_second_run (fs : filesystem) :
  main (main fs).2 = (0, (main fs).2).
Proof.
  unfold main. apply main_over_settled.
  apply main_over_settles; [apply FILE_PARAMS_distinct|apply FILE_PARAMS_plain].
Qed.

(** X17.  The script stays within its table: it fixes at most the 23
    files listed, creates and removes nothing, and leaves every path that
    is not one of the listed files under the base directory as it was. *)
Theorem main_stays_in_table (fs : filesystem) :
  (main fs).1 ≤ 23 ∧
  dom (main fs).2 = dom fs ∧
  ∀ q, (∀ rel_path, rel_path ∈ FILE_PARAMS.*1 → q ≠ path_join base_dir rel_path) →
       (main fs).2 !! q = fs !! q.
Proof.
  unfold main. split; [|split].
  - pose proof (main_over_count FILE_PARAMS 0 fs) as [_ H]. exact H.
  - apply main_over_dom.
  - intros q Hq. apply main_over_frame. intros row Hrow. apply Hq.
    apply list_elem_of_fmap. by exists row.
Qed.

End WithAuthFacts.

(** ** Properties of the wrapping step of fix-act-final.py *)

Module ActWrapFacts.
Import ActWrap.

Lemma split_lines_nonempty s : split_lines s ≠ [].
Proof.
  destruct s as [|c s]; [done|]. cbn [split_lines].
  case_bool_decide; [done|]. by destruct (split_lines s).
Qed.

(** Splitting a text into lines and joining them gives the text back. *)
Lemma join_split_lines s : join_lines (split_lines s) = s.
Proof.
  induction s as [|c s IH]; [done|]. cbn [split_lines].
  pose proof (split_lines_nonempty s) as Hne.
  case_bool_decide as Hc.
  - subst c. cbn [join_lines]. destruct (split_lines s) as [|l ls]; [done|].
    by rewrite IH.
  - destruct (split_lines s) as [|l ls]; [done|].
    rewrite <-IH. by destruct ls.
Qed.

(** While no line opens a call the loop copies the lines. *)
Lemma wrap_from_quiet prev_line lines more :
  quiet prev_line lines = true →
  wrap_from (Outside prev_line) (lines ++ more) =
    (λ out, lines ++ out) <$> wrap_from (Outside (default prev_line (last lines))) more.
Proof.
  revert prev_line. induction lines as [|line lines IH]; intros prev_line Hq.
  - cbn. by destruct (wrap_from _ more).
  - cbn [quiet] in Hq. apply andb_true_iff in Hq as [Ht Hq].
    apply negb_true_iff in Ht. cbn [app wrap_from]. rewrite Ht, (IH _ Hq).
    replace (default prev_line (last (line :: lines)))
      with (default line (last lines)).
    { by destruct (wrap_from _ more). }
    destruct lines as [|x lines]; [done|].
    change (last (line :: x :: lines)) with (last (x :: lines)).
    destruct (last (x :: lines)) eqn:Hl; [done|]. by apply last_None in Hl.
Qed.

(** Inside a call that no line closes the loop runs off the end. *)
Lemma wrap_from_unclosed indent lines :
  Forall (λ l, closed l = false) lines → wrap_from (Inside indent) lines = None.
Proof.
  induction 1 as [|line lines Hc _ IH]; [done|].
  cbn [wrap_from]. by rewrite Hc, IH.
Qed.

(** X18.  A text in which no [render] call has to be wrapped (no line is
    such a call, or each one follows a line with [act]) comes out of the
    step exactly as it went in. *)
Theorem wrap_render_leaves_quiet_text (content : string) :
  quiet "" (split_lines content) = true →
  wrap_render content = Some content.
Proof.
  intros Hq. unfold wrap_render.
  pose proof (wrap_from_quiet "" (split_lines content) [] Hq) as Hw.
  rewrite app_nil_r in Hw. rewrite Hw. cbn. by rewrite app_nil_r, join_split_lines.
Qed.

Lemma wrap_render_leaves_quiet_text_witness :
  let content :=
    "  await act(async () => {" +:+ String "010" "    render(<ExportModal />);" in
  wrap_render content = Some content.
Proof.
  intros content. apply wrap_render_leaves_quiet_text. vm_compute. reflexivity.
Defined.

(** X19.  The step dies with an [IndexError] when the text ends inside a
    call: if the first [render] call to wrap is on a line that does not
    end in [);] and no later line does, the inner loop reads past the
    last line. *)
Theorem wrap_render_unclosed_call (content : string) (before after : list string)
    (line : string) :
  split_lines content = before ++ line :: after →
  quiet "" before = true →
  is_render line = true →
  Str.contains "act" (default "" (last before)) = false →
  Forall (λ l, closed l = false) (line :: after) →
  wrap_render content = None.
Proof.
  intros Hs Hq Hr Ha Hc. unfold wrap_render.
  rewrite Hs, (wrap_from_quiet _ _ _ Hq). cbn [wrap_from]. rewrite Hr, Ha.
  apply Forall_cons in Hc as [Hc Hrest]. cbn. rewrite Hc.
  by rewrite (wrap_from_unclosed _ _ Hrest).
Qed.

(** A test file cut off in the middle of a call. *)
Lemma wrap_render_unclosed_call_witness :
  wrap_render ("it(" +:+ String "010" ("    render(<ExportModal" +:+
               String "010" "      isOpen")) = None.
Proof.
  apply (wrap_render_unclosed_call _ ["it("] ["      isOpen"] "    render(<ExportModal").
  - vm_compute. reflexivity.
  - vm_compute. reflexivity.
  - vm_compute. reflexivity.
  - vm_compute. reflexivity.
  - repeat constructor.
Defined.

(** X20.  When every [render] call stands on one line that ends in [);]
    the step cannot fail, whatever the text. *)
Theorem wrap_render_one_line_calls (content : string) :
  Forall (λ l, is_render l = true → closed l = true) (split_lines content) →
  is_Some (wrap_render content).
Proof.
  intros Hall. unfold wrap_render.
  assert (∀ prev_line lines,
            Forall (λ l, is_render l = true → closed l = true) lines →
            is_Some (wrap_from (Outside prev_line) lines)) as H.
  { intros prev_line lines Hl. revert prev_line.
    induction Hl as [|line lines Hc _ IH]; intros prev_line; [by eexists|].
    cbn [wrap_from]. destruct (IH line) as [out Hout].
    destruct (is_render line) eqn:Hr; [|by rewrite Hout; eexists].
    rewrite (Hc eq_refl). destruct (negb _); rewrite Hout; by eexists. }
  destruct (H "" _ Hall) as [out ->]. by eexists.
Qed.

Lemma wrap_render_one_line_calls_witness :
  is_Some (wrap_render ("    render(<ExportModal isOpen />);" +:+ String "010" "x")).
Proof.
  apply wrap_render_one_line_calls.
  replace (split_lines ("    render(<ExportModal isOpen />);" +:+ String "010" "x"))
    with ["    render(<ExportModal isOpen />);"; "x"] by (vm_compute; reflexivity).
  repeat constructor; intros Hr; vm_compute in Hr |- *; congruence.
Defined.

(** X21.  The loop loses and reorders nothing and adds only its own
    lines: when it ends normally its output is woven from the input, that
    is, the input lines in their order, each as it was or behind two
    blanks, with lines in between that are blanks followed by the opening
    or the closing of an [act] call; and the output has at most three
    times as many lines as the input. *)
Theorem wrap_from_keeps_lines (m : mode) (lines out : list string) :
  (∀ indent, m = Inside indent → Str.all_chars Re.is_whitespace indent = true) →
  wrap_from m lines = Some out →
  woven lines out ∧ length out ≤ 3 * length lines.
Proof.
  assert (∀ line, Str.all_chars Re.is_whitespace (leading_ws line) = true) as Hws.
  { intros line. unfold leading_ws.
    by destruct (take_while_spec Re.is_whitespace line) as (? & _ & ? & _). }
  revert m out. induction lines as [|line lines IH]; intros m out Hm.
  - destruct m; [|done]. intros [= <-]. split; [constructor|done].
  - cbn [wrap_from]. destruct m as [prev_line|indent].
    + destruct (is_render line && negb (Str.contains "act" prev_line)).
      * destruct (closed line).
        -- destruct (wrap_from (Outside line) lines) as [out'|] eqn:Hw; [|done].
           intros [= <-]. destruct (IH (Outside line) _ ltac:(by intros ? [=]) Hw) as [Hwov Hlen].
           split.
           ++ cbn [app]. apply woven_opening; [done|].
              apply woven_indented. by apply woven_closing.
           ++ cbn in Hlen |- *. lia.
        -- destruct (wrap_from (Inside _) lines) as [out'|] eqn:Hw; [|done].
           intros [= <-].
           destruct (IH (Inside (leading_ws line)) _
                       ltac:(by intros ? [= <-]) Hw) as [Hwov Hlen].
           split.
           ++ cbn [app]. apply woven_opening; [done|]. by apply woven_indented.
           ++ cbn in Hlen |- *. lia.
      * destruct (wrap_from (Outside line) lines) as [out'|] eqn:Hw; [|done].
        intros [= <-]. destruct (IH (Outside line) _ ltac:(by intros ? [=]) Hw) as [Hwov Hlen].
        split; [by apply woven_same|cbn in Hlen |- *; lia].
    + pose proof (Hm indent eq_refl) as Hind. destruct (closed line).
      * destruct (wrap_from (Outside line) lines) as [out'|] eqn:Hw; [|done].
        intros [= <-]. destruct (IH (Outside line) _ ltac:(by intros ? [=]) Hw) as [Hwov Hlen].
        split.
        -- apply woven_indented. by apply woven_closing.
        -- cbn in Hlen |- *. lia.
      * destruct (wrap_from (Inside indent) lines) as [out'|] eqn:Hw; [|done].
        intros [= <-]. destruct (IH _ _ Hm Hw) as [Hwov Hlen].
        split; [by apply woven_indented|cbn in Hlen |- *; lia].
Qed.

(** One call on one line, wrapped. *)
Lemma wrap_from_keeps_lines_witness :
  woven ["  render(<ExportModal />);"]
        ["  await act(async () => {"; "    render(<ExportModal />);"; "  });"].
Proof.
  apply (wrap_from_keeps_lines (Outside "")); [done|].
  vm_compute. reflexivity.
Defined.

End ActWrapFacts.
